(** * Audio subtitle editor: segmentation, lookup, edits and time format

    A shallow embedding of the logic of the [AudioSubtitleEditor]
    component: the transcript-to-cue segmentation of [transcribeAudio],
    the active-cue lookup of [updateTime], the edit operations
    [updateSubtitleText] / [updateSubtitleTiming] with the nudge buttons,
    and the [formatTime] / [parseTime] pair.

    Numbers.  A JavaScript [number] holding seconds is read in two ways.
    The modules [Segmentation], [TimeFormat], [Editor] and [Handlers] read
    it as an exact rational ([Q]), the "real-valued seconds" of the data
    model: [Math.floor] is [Qfloor], [Math.min]/[Math.max] are
    [Qmin]/[Qmax], and equality of times is [Qeq] ([==]).  This reading
    carries the properties that rest on the order of the bounds, on the
    structure of the cue list and on the texts.  The module [Doubles] reads
    the same expressions in IEEE 754 binary64 with its rounding, the
    arithmetic the program runs in; it decides the properties that an
    exact reading would settle differently (whether the last cue reaches
    the duration, whether a printed time reads back within a millisecond).
    Loop counters, list indices and the results of [Math.floor] in the exact
    reading are integers ([nat] or [Z]).

    Strings.  A JavaScript string is modelled as a [string] whose characters
    stand for the code units below 256. *)

From Stdlib Require Import ZArith QArith Qround Qminmax Qabs Lqa Lia SpecFloat.
From Stdlib Require Import Bool Arith List String Ascii DecimalString DecimalPos.
Import ListNotations.

Local Open Scope string_scope.

(* ================================================================== *)
(** ** JavaScript string and number primitives used by the component *)
(* ================================================================== *)

Module JS.

(** White space in the sense of [String.prototype.trim] and of the prefix
    skipped by [parseInt]: TAB, LF, VT, FF, CR, SPACE and NBSP (the white
    space and line terminator code units below 256). *)
Definition is_whitespace (c : ascii) : bool :=
  let n := nat_of_ascii c in
  ((9 <=? n) && (n <=? 13) || (n =? 32) || (n =? 160))%nat.

Fixpoint trimStart (s : string) : string :=
  match s with
  | EmptyString => EmptyString
  | String c s' => if is_whitespace c then trimStart s' else s
  end.

Fixpoint trimEnd (s : string) : string :=
  match s with
  | EmptyString => EmptyString
  | String c s' =>
      match trimEnd s' with
      | EmptyString =>
          if is_whitespace c then EmptyString else String c EmptyString
      | r => String c r
      end
  end.

(** [s.trim()] *)
Definition trim (s : string) : string := trimEnd (trimStart s).

(** [s.split(sep)] for a one-character separator: the pieces between the
    separators, empty pieces included; never the empty list. *)
Fixpoint split (sep : ascii) (s : string) : list string :=
  match s with
  | EmptyString => [EmptyString]
  | String c s' =>
      if Ascii.eqb c sep then EmptyString :: split sep s'
      else match split sep s' with
           | [] => [String c EmptyString]
           | w :: ws => String c w :: ws
           end
  end.

(** [xs.join(sep)] *)
Fixpoint join (sep : string) (xs : list string) : string :=
  match xs with
  | [] => EmptyString
  | [x] => x
  | x :: rest => x ++ sep ++ join sep rest
  end.

(** [xs.slice(i, j)] for [0 <= i <= j]. *)
Definition slice {A} (i j : nat) (xs : list A) : list A :=
  firstn (j - i) (skipn i xs).

Fixpoint repeat_char (n : nat) (c : ascii) : string :=
  match n with
  | O => EmptyString
  | S n' => String c (repeat_char n' c)
  end.

(** [s.padStart(n, c)] and [s.padEnd(n, c)] for a one-character filler. *)
Definition padStart (n : nat) (c : ascii) (s : string) : string :=
  repeat_char (n - String.length s) c ++ s.

Definition padEnd (n : nat) (c : ascii) (s : string) : string :=
  s ++ repeat_char (n - String.length s) c.

(** [s.slice(0, n)] *)
Fixpoint take (n : nat) (s : string) : string :=
  match n, s with
  | S n', String c s' => String c (take n' s')
  | _, _ => EmptyString
  end.

(** [n.toString()] of an integer-valued number, and its use in a template
    literal: decimal digits with a leading '-' for negative values.
    (Magnitudes from 1e21 on, which JavaScript prints in exponent notation,
    are not reached by any property below.) *)
Definition toString (z : Z) : string :=
  NilZero.string_of_int (Z.to_int z).

Definition digit_value (c : ascii) : option Z :=
  let n := nat_of_ascii c in
  if ((48 <=? n) && (n <=? 57))%nat then Some (Z.of_nat (n - 48)) else None.

Definition hex_digit_value (c : ascii) : option Z :=
  let n := nat_of_ascii c in
  if ((48 <=? n) && (n <=? 57))%nat then Some (Z.of_nat (n - 48))
  else if ((97 <=? n) && (n <=? 102))%nat then Some (Z.of_nat (n - 87))
  else if ((65 <=? n) && (n <=? 70))%nat then Some (Z.of_nat (n - 55))
  else None.

(** The longest prefix of digits of the radix, read as a number; [None]
    when that prefix is empty. *)
Fixpoint read_digits (digit : ascii -> option Z) (radix : Z)
         (acc : option Z) (s : string) : option Z :=
  match s with
  | EmptyString => acc
  | String c s' =>
      match digit c with
      | Some d =>
          let a := match acc with Some a => a | None => 0%Z end in
          read_digits digit radix (Some (radix * a + d)%Z) s'
      | None => acc
      end
  end.

Definition is_x (c : ascii) : bool :=
  let n := nat_of_ascii c in ((n =? 120) || (n =? 88))%nat.

(** The digits of [parseInt] after the sign: a [0x]/[0X] prefix selects
    radix 16, anything else is read in radix 10. *)
Definition parse_magnitude (s : string) : option Z :=
  match s with
  | String "0" (String x s') =>
      if is_x x then read_digits hex_digit_value 16 None s'
      else read_digits digit_value 10 None s
  | _ => read_digits digit_value 10 None s
  end.

(** [parseInt(s)] with no radix argument; [None] is [NaN]. *)
Definition parseInt (s : string) : option Z :=
  match trimStart s with
  | String "-" s' => option_map Z.opp (parse_magnitude s')
  | String "+" s' => parse_magnitude s'
  | s' => parse_magnitude s'
  end.

(** [x || 0] for a number [x]: [NaN] and zero both give 0. *)
Definition or_zero (x : option Z) : Z :=
  match x with Some z => z | None => 0%Z end.

(** [Math.trunc] on rationals, and the remainder [a % b], which takes the
    sign of the dividend. *)
Definition Qtrunc (q : Q) : Z :=
  if Qle_bool 0 q then Qfloor q else Qceiling q.

Definition rem (a b : Q) : Q :=
  a - b * inject_Z (Qtrunc (a / b)).

End JS.

(* ================================================================== *)
(** ** The data model *)
(* ================================================================== *)

(** [interface Subtitle] *)
Record Subtitle : Type := mkSubtitle {
  id : string;
  startTime : Q;
  endTime : Q;
  text : string
}.

(** Two cues are the same cue when their identifiers and texts are equal
    and their bounds are equal as numbers. *)
Definition cue_equiv (a b : Subtitle) : Prop :=
  id a = id b /\ startTime a == startTime b /\
  endTime a == endTime b /\ text a = text b.

Definition cues_equiv : list Subtitle -> list Subtitle -> Prop :=
  Forall2 cue_equiv.

(* ================================================================== *)
(** ** Segmentation: the body of [transcribeAudio] after the provider call *)
(* ================================================================== *)

Module Segmentation.

Definition wordsPerSegment : nat := 4.
Definition baseSegmentDuration : Q := 2.5.

(** [text.split(' ').filter(word => word.trim().length > 0)] *)
Definition words_of (text : string) : list string :=
  filter (fun word => (0 <? String.length (JS.trim word))%nat)
         (JS.split " " text).

(** [segmentWords.reduce((sum, word) => sum + word.length, 0)] *)
Definition total_length (segmentWords : list string) : nat :=
  fold_left (fun sum word => (sum + String.length word)%nat) segmentWords 0%nat.

Definition Qnat (n : nat) : Q := inject_Z (Z.of_nat n).

(** The cue pushed by one iteration of the loop, for the window that
    starts at word [i]. *)
Definition window_cue (words : list string) (duration : Q) (i : nat)
  : Subtitle :=
  let segmentWords := JS.slice i (i + wordsPerSegment) words in
  let segmentIndex := (i / wordsPerSegment)%nat in
  let startTime := Qnat segmentIndex * baseSegmentDuration in
  let wordCount := List.length segmentWords in
  let avgWordLength := Qnat (total_length segmentWords) / Qnat wordCount in
  let durationMultiplier := Qmax 0.8 (Qmin 1.5 (avgWordLength / 5)) in
  let segmentDuration :=
    Qmin (baseSegmentDuration * durationMultiplier) (duration - startTime) in
  let endTime := Qmin (startTime + segmentDuration) duration in
  {| id := "subtitle-" ++ JS.toString (Z.of_nat segmentIndex);
     startTime := startTime;
     endTime := endTime;
     text := JS.join " " segmentWords |}.

(** [for (let i = 0; i < words.length; i += wordsPerSegment) { ... }],
    started at [i] with the cues pushed so far.  [fuel] bounds the number
    of iterations; [segment_loop_fuel] shows that [length words] is
    always enough. *)
Fixpoint segment_loop (fuel : nat) (words : list string) (duration : Q)
         (i : nat) (newSubtitles : list Subtitle) : list Subtitle :=
  match fuel with
  | O => newSubtitles
  | S fuel' =>
      if (i <? List.length words)%nat then
        let cue := window_cue words duration i in
        (* if (startTime >= duration) break *)
        if Qle_bool duration (startTime cue) then newSubtitles
        else segment_loop fuel' words duration (i + wordsPerSegment)
                          (newSubtitles ++ [cue])
      else newSubtitles
  end.

(** The cue list before the redistribution pass. *)
Definition provisional (text : string) (duration : Q) : list Subtitle :=
  let words := words_of text in
  segment_loop (List.length words) words duration 0 [].

(** [newSubtitles.forEach((subtitle, index) => { ... })], from [index] on. *)
Fixpoint redistribute_from (index : nat) (timePerSubtitle duration : Q)
         (subs : list Subtitle) : list Subtitle :=
  match subs with
  | [] => []
  | subtitle :: rest =>
      {| id := id subtitle;
         startTime := Qnat index * timePerSubtitle;
         endTime := Qmin (Qnat (index + 1) * timePerSubtitle) duration;
         text := text subtitle |}
      :: redistribute_from (S index) timePerSubtitle duration rest
  end.

(** [if (newSubtitles.length > 0) { ... }] *)
Definition redistribute (duration : Q) (newSubtitles : list Subtitle)
  : list Subtitle :=
  if (0 <? List.length newSubtitles)%nat then
    let totalSubtitles := List.length newSubtitles in
    let timePerSubtitle := duration / Qnat totalSubtitles in
    redistribute_from 0 timePerSubtitle duration newSubtitles
  else newSubtitles.

(** The list handed to [setSubtitles]. *)
Definition segment (text : string) (duration : Q) : list Subtitle :=
  redistribute duration (provisional text duration).

End Segmentation.

Import Segmentation.

(* ================================================================== *)
(** ** Time format: [formatTime] and [parseTime] *)
(* ================================================================== *)

Module TimeFormat.

Definition formatTime (seconds : Q) : string :=
  let mins := Qfloor (seconds / 60) in
  let secs := Qfloor (JS.rem seconds 60) in
  let ms := Qfloor (JS.rem seconds 1 * 1000) in
  JS.padStart 2 "0" (JS.toString mins) ++ ":" ++
  JS.padStart 2 "0" (JS.toString secs) ++ "." ++
  JS.padStart 3 "0" (JS.toString ms).

(** [parseInt(secondsParts[1]?.padEnd(3, '0').slice(0, 3)) || 0]: a missing
    fraction is [undefined], which [parseInt] reads as [NaN]. *)
Definition parse_milliseconds (fraction : option string) : Z :=
  JS.or_zero
    (match fraction with
     | Some f => JS.parseInt (JS.take 3 (JS.padEnd 3 "0" f))
     | None => None
     end).

Definition parseTime (timeString : string) : Q :=
  match JS.split ":" timeString with
  | [part0; part1] =>
      let minutes := JS.or_zero (JS.parseInt part0) in
      let secondsParts := JS.split "." part1 in
      let seconds := JS.or_zero (JS.parseInt (hd EmptyString secondsParts)) in
      let milliseconds := parse_milliseconds (nth_error secondsParts 1) in
      inject_Z minutes * 60 + inject_Z seconds + inject_Z milliseconds / 1000
  | _ => 0   (* parts.length !== 2 *)
  end.

End TimeFormat.

Import TimeFormat.

(* ================================================================== *)
(** ** The component state and its handlers *)
(* ================================================================== *)

Module Editor.

(** The [useState] cells of the component that the handlers below read or
    write.  [hasAudioFile] and [hasUser] say whether [audioFile] and [user]
    are set; [alerts] records the messages passed to [alert]. *)
Record State : Type := mkState {
  hasAudioFile : bool;
  hasUser : bool;
  currentTime : Q;
  duration : Q;
  subtitles : list Subtitle;
  isTranscribing : bool;
  transcriptionProgress : Z;
  selectedSubtitle : option string;
  currentSubtitleId : option string;
  alerts : list string
}.

Definition setCurrentTime (v : Q) (st : State) : State :=
  mkState (hasAudioFile st) (hasUser st) v (duration st) (subtitles st)
          (isTranscribing st) (transcriptionProgress st)
          (selectedSubtitle st) (currentSubtitleId st) (alerts st).

Definition setSubtitles (v : list Subtitle) (st : State) : State :=
  mkState (hasAudioFile st) (hasUser st) (currentTime st) (duration st) v
          (isTranscribing st) (transcriptionProgress st)
          (selectedSubtitle st) (currentSubtitleId st) (alerts st).

Definition setIsTranscribing (v : bool) (st : State) : State :=
  mkState (hasAudioFile st) (hasUser st) (currentTime st) (duration st)
          (subtitles st) v (transcriptionProgress st)
          (selectedSubtitle st) (currentSubtitleId st) (alerts st).

Definition setTranscriptionProgress (v : Z) (st : State) : State :=
  mkState (hasAudioFile st) (hasUser st) (currentTime st) (duration st)
          (subtitles st) (isTranscribing st) v
          (selectedSubtitle st) (currentSubtitleId st) (alerts st).

Definition setCurrentSubtitleId (v : option string) (st : State) : State :=
  mkState (hasAudioFile st) (hasUser st) (currentTime st) (duration st)
          (subtitles st) (isTranscribing st) (transcriptionProgress st)
          (selectedSubtitle st) v (alerts st).

Definition alert (msg : string) (st : State) : State :=
  mkState (hasAudioFile st) (hasUser st) (currentTime st) (duration st)
          (subtitles st) (isTranscribing st) (transcriptionProgress st)
          (selectedSubtitle st) (currentSubtitleId st) (alerts st ++ [msg]).

(** *** Active-cue lookup *)

(** [time >= sub.startTime && time <= sub.endTime] *)
Definition covers (time : Q) (sub : Subtitle) : bool :=
  Qle_bool (startTime sub) time && Qle_bool time (endTime sub).

(** [subtitles.find(sub => ...)] *)
Definition currentSub (time : Q) (subs : list Subtitle) : option Subtitle :=
  find (covers time) subs.

(** [currentSub?.id || null]: no cue, or a cue whose id is the empty
    string, gives [null]. *)
Definition id_or_null (sub : option Subtitle) : option string :=
  match sub with
  | Some s => if String.eqb (id s) EmptyString then None else Some (id s)
  | None => None
  end.

(** The [timeupdate] listener, for the playback position [time] read from
    the audio element. *)
Definition updateTime (time : Q) (st : State) : State :=
  setCurrentSubtitleId (id_or_null (currentSub time (subtitles st)))
                       (setCurrentTime time st).

(** *** Edit operations *)

Definition updateSubtitleText (i : string) (newText : string)
           (prev : list Subtitle) : list Subtitle :=
  map (fun sub =>
         if String.eqb (id sub) i
         then {| id := id sub; startTime := startTime sub;
                 endTime := endTime sub; text := newText |}
         else sub) prev.

Definition updateSubtitleTiming (i : string) (newStart newEnd : Q)
           (prev : list Subtitle) : list Subtitle :=
  map (fun sub =>
         if String.eqb (id sub) i
         then {| id := id sub; startTime := newStart;
                 endTime := newEnd; text := text sub |}
         else sub) prev.



Definition endMinus (subtitle : Subtitle) : Q :=
  Qmax (startTime subtitle + 0.1) (endTime subtitle - 0.5).

Definition endPlus (duration : Q) (subtitle : Subtitle) : Q :=
  Qmin duration (endTime subtitle + 0.5).

(** The cue shown in the edit panel: the panel is rendered when
    [selectedSubtitle] is truthy (neither [null] nor the empty string) and
    [subtitles.find(s => s.id === selectedSubtitle)] finds a cue. *)
Definition edited (st : State) : option Subtitle :=
  match selectedSubtitle st with
  | Some sel =>
      if String.eqb sel EmptyString then None
      else find (fun s => String.eqb (id s) sel) (subtitles st)
  | None => None
  end.

(** The [onClick] handlers of "End -0.5s" and "End +0.5s"; without an
    edited cue the buttons are not rendered and nothing happens. *)
Definition clickEndMinus (st : State) : State :=
  match edited st with
  | Some subtitle =>
      setSubtitles (updateSubtitleTiming (id subtitle) (startTime subtitle)
                                         (endMinus subtitle) (subtitles st)) st
  | None => st
  end.

Definition clickEndPlus (st : State) : State :=
  match edited st with
  | Some subtitle =>
      setSubtitles (updateSubtitleTiming (id subtitle) (startTime subtitle)
                                         (endPlus (duration st) subtitle)
                                         (subtitles st)) st
  | None => st
  end.

(** *** Transcription *)

(** What an awaited promise delivers. *)
Inductive outcome (A : Type) : Type :=
  | Resolved (value : A)
  | Rejected.
Arguments Resolved {A} value.
Arguments Rejected {A}.

(** One firing of the progress timer:
    [setTranscriptionProgress(prev => Math.min(prev + 10, 90))]. *)
Definition progressTick (st : State) : State :=
  setTranscriptionProgress (Z.min (transcriptionProgress st + 10) 90) st.

Fixpoint progressTicks (n : nat) (st : State) : State :=
  match n with
  | O => st
  | S n' => progressTicks n' (progressTick st)
  end.

(** The [catch] and [finally] blocks. *)
Definition onCatch (st : State) : State :=
  alert "Transcription failed. Please try again." st.

Definition onFinally (st : State) : State :=
  setTranscriptionProgress 0 (setIsTranscribing false st).

(** [transcribeAudio], for the outcome [fileRead] of reading the file as
    base64, the number [ticks] of firings of the progress timer while the
    provider call is pending, and the outcome [reply] of the provider call
    (the transcript text).  [duration] is the one of the state in which the
    handler was created. *)
Definition transcribeAudio (fileRead : outcome string) (ticks : nat)
           (reply : outcome string) (st : State) : State :=
  if negb (hasAudioFile st) || negb (hasUser st) then st
  else
    let st1 := setTranscriptionProgress 0 (setIsTranscribing true st) in
    onFinally
      match fileRead with
      | Rejected => onCatch st1
      | Resolved base64Audio =>
          let st2 := progressTicks ticks st1 in
          match reply with
          | Rejected => onCatch st2
          | Resolved text =>
              setSubtitles (segment text (duration st))
                           (setTranscriptionProgress 100 st2)
          end
      end.

End Editor.

Import Editor.

(* ================================================================== *)
(** ** Vocabulary of the properties *)
(* ================================================================== *)

(** A transcript is blank when every character of it is white space. *)
Fixpoint blank (s : string) : bool :=
  match s with
  | EmptyString => true
  | String c s' => JS.is_whitespace c && blank s'
  end.

(** The only white space of the string is the space character. *)
Fixpoint only_spaces_as_whitespace (s : string) : bool :=
  match s with
  | EmptyString => true
  | String c s' =>
      (negb (JS.is_whitespace c) || Ascii.eqb c " ")
      && only_spaces_as_whitespace s'
  end.

(** The playback position [t] lies in the closed interval of the cue. *)
Definition active (t : Q) (c : Subtitle) : Prop :=
  startTime c <= t /\ t <= endTime c.

(** The number of occurrences of a character. *)
Fixpoint count_char (c : ascii) (s : string) : nat :=
  match s with
  | EmptyString => O
  | String x s' => ((if Ascii.eqb x c then 1 else 0) + count_char c s')%nat
  end.

(** Strings of decimal digits and the number they denote, read from the
    left with the digits read so far in [acc]. *)
Fixpoint all_digits (s : string) : bool :=
  match s with
  | EmptyString => true
  | String c s' =>
      match JS.digit_value c with Some _ => all_digits s' | None => false end
  end.

Fixpoint digits_acc (acc : Z) (s : string) : Z :=
  match s with
  | EmptyString => acc
  | String c s' =>
      match JS.digit_value c with
      | Some d => digits_acc (10 * acc + d) s'
      | None => acc
      end
  end.

(** The text that [formatTime] builds from its three integer fields. *)
Definition render (mins secs ms : Z) : string :=
  JS.padStart 2 "0" (JS.toString mins) ++ ":" ++
  JS.padStart 2 "0" (JS.toString secs) ++ "." ++
  JS.padStart 3 "0" (JS.toString ms).

(** What [parseTime] makes of the two parts around the only colon. *)
Definition lenient (part0 part1 : string) : Q :=
  let secondsParts := JS.split "." part1 in
  inject_Z (JS.or_zero (JS.parseInt part0)) * 60
  + inject_Z (JS.or_zero (JS.parseInt (hd EmptyString secondsParts)))
  + inject_Z (parse_milliseconds (nth_error secondsParts 1)) / 1000.

(** Every millisecond field below 1000 is read back from its three
    digits; checked by running [parse_milliseconds] on all of them. *)
Definition milliseconds_read_back (bound : nat) : bool :=
  forallb (fun n =>
             Z.eqb (parse_milliseconds
                      (Some (JS.padStart 3 "0" (JS.toString (Z.of_nat n)))))
                   (Z.of_nat n))
          (seq 0 bound).

(** The readings of the specification that the code is compared with. *)
Module Spec.

(** "Tokenize transcript on whitespace, discard empty tokens": the pieces
    between white space characters, without the empty ones. *)
Fixpoint split_whitespace (s : string) : list string :=
  match s with
  | EmptyString => [EmptyString]
  | String c s' =>
      if JS.is_whitespace c then EmptyString :: split_whitespace s'
      else match split_whitespace s' with
           | [] => [String c EmptyString]
           | w :: ws => String c w :: ws
           end
  end.

Definition tokenize (s : string) : list string :=
  filter (fun w => (0 <? String.length w)%nat) (split_whitespace s).

(** "[MM:SS.mmm] - minutes (no upper bound, zero-padded to 2 digits
    minimum), seconds zero-padded to 2 digits, milliseconds zero-padded to
    3 digits, separated by [:] and [.]". *)
Definition is_MM_SS_mmm (s : string) : bool :=
  match JS.split ":" s with
  | [mm; rest] =>
      match JS.split "." rest with
      | [ss; mmm] =>
          all_digits mm && (2 <=? String.length mm)%nat
          && all_digits ss && (String.length ss =? 2)%nat
          && all_digits mmm && (String.length mmm =? 3)%nat
      | _ => false
      end
  | _ => false
  end.

End Spec.

(** The three integer fields that [formatTime] prints. *)
Definition minutes_field (t : Q) : Z := Qfloor (t / 60).
Definition seconds_field (t : Q) : Z := Qfloor (JS.rem t 60).
Definition milliseconds_field (t : Q) : Z := Qfloor (JS.rem t 1 * 1000).

(** [timePerSubtitle] for [N] cues. *)
Definition span (duration : Q) (N : nat) : Q := duration / Qnat N.

(** Proof steps used more than once. *)
Ltac cue_list_equiv :=
  repeat (first [ apply Forall2_nil
                | apply Forall2_cons;
                  [ repeat split; try reflexivity | ] ]).

Ltac nil_is_nil :=
  let H := fresh in intro H; exfalso; apply H; reflexivity.

(** The transcript, the cues and the states of the worked examples. *)
Definition transcript8 : string := "one two three four five six seven eight".

(** "one", a TAB, "two". *)
Definition transcript_tab : string := "one" ++ String "009"%char "two".

Definition cue02 : Subtitle := mkSubtitle "subtitle-0" 0 2 "one".
Definition cue24 : Subtitle := mkSubtitle "subtitle-1" 2 4 "two".

Definition state_of (subs : list Subtitle) (dur : Q) (sel : option string)
  : State :=
  mkState true true 0 dur subs false 0 sel None [].

(* ================================================================== *)
(** ** The other handlers of the component *)
(* ================================================================== *)

Module Handlers.

(** [a < b] on numbers. *)
Definition Qlt_bool (a b : Q) : bool := negb (Qle_bool b a).

(** [s.startsWith(prefix)] *)
Fixpoint startsWith (prefix s : string) : bool :=
  match prefix, s with
  | EmptyString, _ => true
  | String a prefix', String b s' => Ascii.eqb a b && startsWith prefix' s'
  | String _ _, EmptyString => false
  end.

(** The line feed of the template literals. *)
Definition LF : string := String "010"%char EmptyString.

(** The fields of a [File] that the component reads. *)
Record File : Type := mkFile {
  name : string;
  type : string
}.

(** The component state with the cells that [State] leaves out:
    [audioFile] itself (the [hasAudioFile] cell of [editor] says whether it
    is set), [audioUrl] and [isPlaying]. *)
Record Player : Type := mkPlayer {
  audioFile : option File;
  audioUrl : string;
  isPlaying : bool;
  editor : State
}.

Definition setEditor (v : State) (p : Player) : Player :=
  mkPlayer (audioFile p) (audioUrl p) (isPlaying p) v.

Definition setIsPlaying (v : bool) (p : Player) : Player :=
  mkPlayer (audioFile p) (audioUrl p) v (editor p).

Definition setSelectedSubtitle (v : option string) (st : State) : State :=
  mkState (hasAudioFile st) (hasUser st) (currentTime st) (duration st)
          (subtitles st) (isTranscribing st) (transcriptionProgress st)
          v (currentSubtitleId st) (alerts st).

Definition setDuration (v : Q) (st : State) : State :=
  mkState (hasAudioFile st) (hasUser st) (currentTime st) v
          (subtitles st) (isTranscribing st) (transcriptionProgress st)
          (selectedSubtitle st) (currentSubtitleId st) (alerts st).

Definition setHasAudioFile (v : bool) (st : State) : State :=
  mkState v (hasUser st) (currentTime st) (duration st)
          (subtitles st) (isTranscribing st) (transcriptionProgress st)
          (selectedSubtitle st) (currentSubtitleId st) (alerts st).

(** *** Upload *)

(** [setAudioFile(file); setAudioUrl(url); setSubtitles([]);
    setSelectedSubtitle(null)], with the object URL [url] that
    [URL.createObjectURL] returned. *)
Definition acceptFile (file : File) (url : string) (p : Player) : Player :=
  mkPlayer (Some file) url (isPlaying p)
           (setSelectedSubtitle None
              (setSubtitles [] (setHasAudioFile true (editor p)))).

(** [handleFileUpload], for [event.target.files?.[0]]. *)
Definition handleFileUpload (file0 : option File) (url : string)
           (p : Player) : Player :=
  match file0 with
  | None => p
  | Some file =>
      if negb (startsWith "audio/" (type file))
      then setEditor (alert "Please select an audio file" (editor p)) p
      else acceptFile file url p
  end.

(** [handleDrop], for [event.dataTransfer.files[0]]. *)
Definition handleDrop (file0 : option File) (url : string)
           (p : Player) : Player :=
  match file0 with
  | Some file =>
      if startsWith "audio/" (type file) then acceptFile file url p else p
  | None => p
  end.

(** *** Playback controls *)

(** [audioRef.current] is set while the [<audio>] element is rendered:
    with a signed-in user and an audio file. *)
Definition audioMounted (p : Player) : bool :=
  hasUser (editor p)
  && match audioFile p with Some _ => true | None => false end.

Definition togglePlayPause (p : Player) : Player :=
  if negb (audioMounted p) then p
  else setIsPlaying (negb (isPlaying p)) p.

Definition seekTo (time : Q) (p : Player) : Player :=
  if audioMounted p then setEditor (setCurrentTime time (editor p)) p
  else p.

Definition skipBackward (p : Player) : Player :=
  seekTo (Qmax 0 (currentTime (editor p) - 10)) p.

Definition skipForward (p : Player) : Player :=
  seekTo (Qmin (duration (editor p)) (currentTime (editor p) + 10)) p.

(** The [loadedmetadata] and [ended] listeners. *)
Definition updateDuration (audioDuration : Q) (st : State) : State :=
  setDuration audioDuration st.

Definition handleEnded (p : Player) : Player :=
  setEditor (setCurrentSubtitleId None (editor p)) (setIsPlaying false p).

(** The [onClick] of an entry of the timeline. *)
Definition clickTimeline (subtitle : Subtitle) (p : Player) : Player :=
  seekTo (startTime subtitle)
         (setEditor (setSelectedSubtitle (Some (id subtitle)) (editor p)) p).

(** *** Live display *)

(** The cue shown by the live display: [currentSubtitleId] truthy and
    [subtitles.find(s => s.id === currentSubtitleId)]. *)
Definition displayed (st : State) : option Subtitle :=
  match currentSubtitleId st with
  | Some cid =>
      if String.eqb cid EmptyString then None
      else find (fun s => String.eqb (id s) cid) (subtitles st)
  | None => None
  end.

(** The width of the progress bar of a cue, in percent (for a cue with
    [startTime <> endTime]; otherwise JavaScript divides by zero). *)
Definition progress (currentTime : Q) (sub : Subtitle) : Q :=
  Qmin 100
       (Qmax 0 ((currentTime - startTime sub)
                / (endTime sub - startTime sub) * 100)).

(** *** Edit panel *)

(** The [onChange] handlers of the two time fields and of the text area,
    for the text [value] of the field. *)
Definition changeStartTime (value : string) (st : State) : State :=
  match edited st with
  | Some subtitle =>
      let newStartTime := parseTime value in
      if Qle_bool 0 newStartTime && Qlt_bool newStartTime (endTime subtitle)
      then setSubtitles
             (updateSubtitleTiming (id subtitle) newStartTime
                                   (endTime subtitle) (subtitles st)) st
      else st
  | None => st
  end.

Definition changeEndTime (value : string) (st : State) : State :=
  match edited st with
  | Some subtitle =>
      let newEndTime := parseTime value in
      if Qlt_bool (startTime subtitle) newEndTime
         && Qle_bool newEndTime (duration st)
      then setSubtitles
             (updateSubtitleTiming (id subtitle) (startTime subtitle)
                                   newEndTime (subtitles st)) st
      else st
  | None => st
  end.

Definition changeText (value : string) (st : State) : State :=
  match edited st with
  | Some subtitle =>
      setSubtitles (updateSubtitleText (id subtitle) value (subtitles st)) st
  | None => st
  end.



(** *** Export *)

(** The blocks that [subtitles.forEach((subtitle, index) => ...)] appends
    to [srtContent], from [index] on. *)
Fixpoint srt_from (index : nat) (subs : list Subtitle) : string :=
  match subs with
  | [] => EmptyString
  | subtitle :: rest =>
      (JS.toString (Z.of_nat (index + 1)) ++ LF)
      ++ (formatTime (startTime subtitle) ++ " --> "
          ++ formatTime (endTime subtitle) ++ LF)
      ++ (text subtitle ++ LF ++ LF)
      ++ srt_from (S index) rest
  end.

Definition srtContent (subs : list Subtitle) : string := srt_from 0 subs.

(** A character of the class [[^/.]]. *)
Definition extension_char (c : ascii) : bool :=
  negb (Ascii.eqb c "/") && negb (Ascii.eqb c ".").

Fixpoint all_extension_chars (s : string) : bool :=
  match s with
  | EmptyString => true
  | String c s' => extension_char c && all_extension_chars s'
  end.

(** [name.replace(/\.[^/.]+$/, '')]: the leftmost dot that is followed, up
    to the end, by one or more characters other than [/] and [.] is
    removed together with what follows it. *)
Fixpoint stripExtension (s : string) : string :=
  match s with
  | EmptyString => EmptyString
  | String c s' =>
      if Ascii.eqb c "."
         && (0 <? String.length s')%nat && all_extension_chars s'
      then EmptyString
      else String c (stripExtension s')
  end.

(** [`${audioFile?.name.replace(/\.[^/.]+$/, '') || 'subtitles'}.srt`] *)
Definition downloadName (file : option File) : string :=
  let stem := match file with
              | Some f => stripExtension (name f)
              | None => EmptyString   (* undefined *)
              end in
  (if String.eqb stem EmptyString then "subtitles" else stem) ++ ".srt".

(** [exportSRT]: nothing without cues, otherwise the download of
    [srtContent] under [downloadName]. *)
Definition exportSRT (p : Player) : option (string * string) :=
  if (List.length (subtitles (editor p)) =? 0)%nat then None
  else Some (downloadName (audioFile p),
             srtContent (subtitles (editor p))).

End Handlers.

Import Handlers.

(* ================================================================== *)
(** ** The error boundary and the error filter *)
(* ================================================================== *)

Module ErrorBoundary.

(** [c.toLowerCase()] on the code units below 256: the letters A-Z and the
    capital letters of Latin-1 (192-222 without the multiplication sign
    215) move up by 32. *)
Definition lower_char (c : ascii) : ascii :=
  let n := nat_of_ascii c in
  if ((65 <=? n) && (n <=? 90)
      || (192 <=? n) && (n <=? 222) && negb (n =? 215))%nat
  then ascii_of_nat (n + 32) else c.

Fixpoint toLowerCase (s : string) : string :=
  match s with
  | EmptyString => EmptyString
  | String c s' => String (lower_char c) (toLowerCase s')
  end.

(** [s.includes(needle)] *)
Fixpoint includes (needle s : string) : bool :=
  startsWith needle s
  || match s with
     | EmptyString => false
     | String _ s' => includes needle s'
     end.

(** An [Error]: its [name], its [message] and its [stack], which may be
    missing. *)
Record Error : Type := mkError {
  errorName : string;
  message : string;
  stack : option string
}.

(** [String(error)], that is [Error.prototype.toString]. *)
Definition errorToString (e : Error) : string :=
  if String.eqb (errorName e) EmptyString then message e
  else if String.eqb (message e) EmptyString then errorName e
  else errorName e ++ ": " ++ message e.

(** [error.message || error.stack || String(error)] *)
Definition errorMessage (e : Error) : string :=
  if negb (String.eqb (message e) EmptyString) then message e
  else match stack e with
       | Some st =>
           if negb (String.eqb st EmptyString) then st else errorToString e
       | None => errorToString e
       end.

Definition metamaskKeywords : list string :=
  [ "metamask"; "MetaMask"; "metamask_getProviderState";
    "ethereum.request"; "ethereum.send"; "web3"; "provider";
    "requestProvider.js"; "inpage.js" ].

(** The test on the message text. *)
Definition mentionsMetaMask (errorMessage : string) : bool :=
  existsb (fun keyword =>
             includes (toLowerCase keyword) (toLowerCase errorMessage))
          metamaskKeywords.

(** [isMetaMaskError]; [None] is a missing error. *)
Definition isMetaMaskError (error : option Error) : bool :=
  match error with
  | None => false
  | Some e => mentionsMetaMask (errorMessage e)
  end.

(** The state of the boundary. *)
Record State : Type := mkState {
  hasError : bool;
  error : option Error
}.

Definition initial : State := mkState false None.

(** [getDerivedStateFromError]: the object it returns is merged into the
    state, so [{ hasError: false }] keeps the stored error. *)
Definition getDerivedStateFromError (e : Error) (st : State) : State :=
  if isMetaMaskError (Some e) then mkState false (error st)
  else mkState true (Some e).

Definition componentDidCatch (e : Error) (st : State) : State :=
  if isMetaMaskError (Some e) then mkState false None else st.

Definition handleReset (st : State) : State := mkState false None.

(** What [render] returns. *)
Inductive View : Type :=
  | Children
  | Fallback.

Definition render (st : State) : View :=
  match error st with
  | Some e =>
      if hasError st
      then if isMetaMaskError (Some e) then Children else Fallback
      else Children
  | None => Children
  end.

(** An error thrown below the boundary: first the derived state, then
    [componentDidCatch]. *)
Definition catchError (e : Error) (st : State) : State :=
  componentDidCatch e (getDerivedStateFromError e st).

(** The keywords that decide the test, and those of the filter of
    [console.error] in the entry point. *)
Definition decidingKeywords : list string :=
  [ "metamask"; "ethereum.request"; "ethereum.send"; "web3"; "provider";
    "inpage.js" ].

Definition entryKeywords : list string :=
  [ "metamask"; "MetaMask"; "metamask_getProviderState";
    "ethereum.request"; "ethereum.send"; "web3"; "provider" ].

(** The override of [console.error] in the entry point, for the text
    [args.join(' ')]: whether the call is turned into a warning.  The
    tested object is [{ message: errorString }]; with an empty message the
    test falls through to [String(error)], the text [[object Object]]. *)
Definition consoleErrorSuppressed (errorString : string) : bool :=
  let errorMessage :=
    if negb (String.eqb errorString EmptyString) then errorString
    else "[object Object]" in
  existsb (fun keyword =>
             includes (toLowerCase keyword) (toLowerCase errorMessage))
          entryKeywords.

End ErrorBoundary.

(* ================================================================== *)
(** ** Vocabulary of the further properties *)
(* ================================================================== *)

(** Window [k] is pushed when word [4 * k] exists and the window starts
    before the end of the audio. *)
Definition window_in_time (words : list string) (duration : Q) (k : nat)
  : Prop :=
  (4 * k < List.length words)%nat /\ Qnat k * baseSegmentDuration < duration.


(** The zero-padded text of every number below [bound] is [width]
    characters long; checked by printing all of them. *)
Definition padded_width (width bound : nat) : bool :=
  forallb (fun n =>
             (String.length (JS.padStart width "0" (JS.toString (Z.of_nat n)))
              =? width)%nat)
          (seq 0 bound).

(** The block that [exportSRT] writes for a cue under the number [n]. *)
Definition srt_block (n : nat) (c : Subtitle) : string :=
  (JS.toString (Z.of_nat n) ++ LF)
  ++ (formatTime (startTime c) ++ " --> " ++ formatTime (endTime c) ++ LF)
  ++ (text c ++ LF ++ LF).

(** A player with a signed-in user, the audio file [f] and the editor
    state [st]. *)
Definition player_of (f : File) (st : Editor.State) : Player :=
  mkPlayer (Some f) "blob:1" false st.

(* ================================================================== *)
(** ** The numbers of the source as IEEE doubles *)
(* ================================================================== *)

(** The modules above read a [number] as an exact rational.  This module
    reads the same expressions of the source in the arithmetic the program
    runs in: IEEE 754 binary64, every operation rounded to nearest, ties to
    even.  [S754_finite s m e] is the double [(-1)^s * m * 2^e]; [S754_nan]
    is [NaN].  It decides the properties whose truth depends on the
    rounding. *)
Module Doubles.

Definition prec : Z := 53.
Definition emax : Z := 1024.

Definition double : Type := spec_float.

(** The double nearest to an integer; exact below 2^53. *)
Definition of_Z (z : Z) : double := binary_normalize prec emax z 0 false.

Definition of_nat (n : nat) : double := of_Z (Z.of_nat n).

Definition add : double -> double -> double := SFadd prec emax.
Definition sub : double -> double -> double := SFsub prec emax.
Definition mul : double -> double -> double := SFmul prec emax.
Definition div : double -> double -> double := SFdiv prec emax.

(** The decimal literal [m / 10^k] of the program text ([2.5] is
    [decimal 25 1]): the double nearest to it, for [m] and [10^k] below
    2^53. *)
Definition decimal (m : Z) (k : nat) : double :=
  div (of_Z m) (of_Z (10 ^ Z.of_nat k)).

Definition geb (a b : double) : bool := SFleb b a.

Definition is_nan (x : double) : bool :=
  match x with S754_nan => true | _ => false end.

(** [Math.min(a, b)] and [Math.max(a, b)]: [NaN] when an operand is [NaN],
    and [-0] counts as below [+0]. *)
Definition min (a b : double) : double :=
  if is_nan a || is_nan b then S754_nan
  else match SFcompare a b with
       | Some Lt => a
       | Some Gt => b
       | _ => match a with S754_zero true => a | _ => b end
       end.

Definition max (a b : double) : double :=
  if is_nan a || is_nan b then S754_nan
  else match SFcompare a b with
       | Some Lt => b
       | Some Gt => a
       | _ => match a with S754_zero false => a | _ => b end
       end.

(** The rational a finite double stands for. *)
Definition value (x : double) : option Q :=
  match x with
  | S754_zero _ => Some 0%Q
  | S754_finite s m e =>
      let q := (inject_Z (Zpos m) * 2 ^ e)%Q in
      Some (if s then (- q)%Q else q)
  | _ => None
  end.

Definition signed (s : bool) (m : positive) : Z :=
  if s then Zneg m else Zpos m.

(** [Math.floor(x)] *)
Definition floor (x : double) : double :=
  match x with
  | S754_finite s m e =>
      let f := if (0 <=? e)%Z then (signed s m * 2 ^ e)%Z
               else (signed s m / 2 ^ (- e))%Z in
      if (f =? 0)%Z then S754_zero s else of_Z f
  | _ => x
  end.

(** [a % b]: the remainder of the truncated division, with the sign of the
    dividend; it is exact. *)
Definition rem (a b : double) : double :=
  match a, b with
  | S754_nan, _ | _, S754_nan => S754_nan
  | S754_infinity _, _ => S754_nan
  | _, S754_zero _ => S754_nan
  | S754_zero _, _ => a
  | S754_finite _ _ _, S754_infinity _ => a
  | S754_finite sa ma ea, S754_finite _ mb eb =>
      let e := Z.min ea eb in
      let r := ((Zpos ma * 2 ^ (ea - e)) mod (Zpos mb * 2 ^ (eb - e)))%Z in
      binary_normalize prec emax (if sa then (- r)%Z else r) e sa
  end.

(** The integer a double holds, when it holds one. *)
Definition integer_value (x : double) : option Z :=
  match x with
  | S754_zero _ => Some 0%Z
  | S754_finite s m e =>
      if (0 <=? e)%Z then Some (signed s m * 2 ^ e)%Z
      else if (signed s m mod 2 ^ (- e) =? 0)%Z
           then Some (signed s m / 2 ^ (- e))%Z
           else None
  | _ => None
  end.

(** [x.toString()] where the text is the plain decimal text of an integer
    below 1e21 in magnitude, [NaN] or an infinity.  [None] stands for the
    other texts (a fraction, or the exponent notation used from 1e21 on),
    which this model does not print. *)
Definition toString (x : double) : option string :=
  match x with
  | S754_nan => Some "NaN"
  | S754_infinity s => Some (if s then "-Infinity" else "Infinity")
  | _ =>
      match integer_value x with
      | Some z => if (Z.abs z <? 10 ^ 21)%Z then Some (JS.toString z) else None
      | None => None
      end
  end.

(** [parseInt(s) || 0] as a number. *)
Definition parseInt_or_zero (s : string) : double :=
  of_Z (JS.or_zero (JS.parseInt s)).

(** *** [formatTime] and [parseTime] *)

Definition formatTime (seconds : double) : option string :=
  let mins := floor (div seconds (of_Z 60)) in
  let secs := floor (rem seconds (of_Z 60)) in
  let ms := floor (mul (rem seconds (of_Z 1)) (of_Z 1000)) in
  match toString mins, toString secs, toString ms with
  | Some m, Some s, Some l =>
      Some (JS.padStart 2 "0" m ++ ":" ++
            JS.padStart 2 "0" s ++ "." ++
            JS.padStart 3 "0" l)
  | _, _, _ => None
  end.

Definition parseTime (timeString : string) : double :=
  match JS.split ":" timeString with
  | [part0; part1] =>
      let minutes := parseInt_or_zero part0 in
      let secondsParts := JS.split "." part1 in
      let seconds := parseInt_or_zero (hd EmptyString secondsParts) in
      let milliseconds :=
        of_Z (TimeFormat.parse_milliseconds (nth_error secondsParts 1)) in
      add (add (mul minutes (of_Z 60)) seconds)
          (div milliseconds (of_Z 1000))
  | _ => of_Z 0   (* parts.length !== 2 *)
  end.

(** *** Segmentation *)

(** [interface Subtitle], with the two bounds as doubles. *)
Record Cue : Type := mkCue {
  id : string;
  startTime : double;
  endTime : double;
  text : string
}.

Definition baseSegmentDuration : double := decimal 25 1.

Definition window_cue (words : list string) (duration : double) (i : nat)
  : Cue :=
  let segmentWords := JS.slice i (i + wordsPerSegment) words in
  let segmentIndex := (i / wordsPerSegment)%nat in
  let startTime := mul (of_nat segmentIndex) baseSegmentDuration in
  let wordCount := List.length segmentWords in
  let avgWordLength :=
    div (of_nat (total_length segmentWords)) (of_nat wordCount) in
  let durationMultiplier :=
    max (decimal 8 1) (min (decimal 15 1) (div avgWordLength (of_Z 5))) in
  let segmentDuration :=
    min (mul baseSegmentDuration durationMultiplier) (sub duration startTime) in
  let endTime := min (add startTime segmentDuration) duration in
  {| id := "subtitle-" ++ JS.toString (Z.of_nat segmentIndex);
     startTime := startTime;
     endTime := endTime;
     text := JS.join " " segmentWords |}.

(** The loop of [transcribeAudio]; [fuel] bounds the iterations, and
    [segment_loop_fuel] below shows that [length words] is enough. *)
Fixpoint segment_loop (fuel : nat) (words : list string) (duration : double)
         (i : nat) (newSubtitles : list Cue) : list Cue :=
  match fuel with
  | O => newSubtitles
  | S fuel' =>
      if (i <? List.length words)%nat then
        let cue := window_cue words duration i in
        (* if (startTime >= duration) break *)
        if geb (startTime cue) duration then newSubtitles
        else segment_loop fuel' words duration (i + wordsPerSegment)
                          (newSubtitles ++ [cue])
      else newSubtitles
  end.

Definition provisional (transcript : string) (duration : double) : list Cue :=
  let words := words_of transcript in
  segment_loop (List.length words) words duration 0 [].

Fixpoint redistribute_from (index : nat) (timePerSubtitle duration : double)
         (subs : list Cue) : list Cue :=
  match subs with
  | [] => []
  | subtitle :: rest =>
      {| id := id subtitle;
         startTime := mul (of_nat index) timePerSubtitle;
         endTime := min (mul (of_nat (index + 1)) timePerSubtitle) duration;
         text := text subtitle |}
      :: redistribute_from (S index) timePerSubtitle duration rest
  end.

Definition redistribute (duration : double) (newSubtitles : list Cue)
  : list Cue :=
  if (0 <? List.length newSubtitles)%nat then
    let totalSubtitles := List.length newSubtitles in
    let timePerSubtitle := div duration (of_nat totalSubtitles) in
    redistribute_from 0 timePerSubtitle duration newSubtitles
  else newSubtitles.

(** The list handed to [setSubtitles]. *)
Definition segment (transcript : string) (duration : double) : list Cue :=
  redistribute duration (provisional transcript duration).

End Doubles.






(* ================================================================== *)
(** ** End-to-end scenario *)
(* ================================================================== *)

(** C1, as stated, fails: the identifiers of the two cues are the strings
    [subtitle-0] and [subtitle-1], not the bare indices 0 and 1. *)
Lemma C1_ids_are_not_bare_indices :
  ~ cues_equiv (segment transcript8 10)
      [ mkSubtitle "0" 0 5 "one two three four";
        mkSubtitle "1" 5 10 "five six seven eight" ].
Proof.
  intro H. inversion H as [| a b l l' Hab _]; subst.
  destruct Hab as [Hid _]. vm_compute in Hid. discriminate Hid.
Qed.

(** C1, amended: for the transcript "one two three four five six seven
    eight" and a duration of 10, the loop produces exactly two windows of
    four words each, and after the redistribution pass the cue list is
    [subtitle-0] on [0,5] with "one two three four" followed by
    [subtitle-1] on [5,10] with "five six seven eight". *)
Theorem C1_end_to_end :
  List.length (provisional transcript8 10) = 2%nat
  /\ map (fun c => List.length (words_of (text c))) (provisional transcript8 10)
     = [4; 4]%nat
  /\ cues_equiv (provisional transcript8 10)
       [ mkSubtitle "subtitle-0" 0 2 "one two three four";
         mkSubtitle "subtitle-1" 2.5 4.625 "five six seven eight" ]
  /\ cues_equiv (segment transcript8 10)
       [ mkSubtitle "subtitle-0" 0 5 "one two three four";
         mkSubtitle "subtitle-1" 5 10 "five six seven eight" ].
Proof.
  split; [ reflexivity | ].
  split; [ reflexivity | ].
  split.
  - vm_compute provisional. cue_list_equiv.
  - vm_compute segment. cue_list_equiv.
Qed.

(* ================================================================== *)
(** ** Edit store: text replacement *)
(* ================================================================== *)

Section EditText.

Variables (i newText : string).

Lemma updateSubtitleText_length (prev : list Subtitle) :
  List.length (updateSubtitleText i newText prev) = List.length prev.
Proof. unfold updateSubtitleText. apply length_map. Qed.

Lemma updateSubtitleText_nth (prev : list Subtitle) (k : nat) :
  nth_error (updateSubtitleText i newText prev) k
  = option_map
      (fun sub => if String.eqb (id sub) i
                  then mkSubtitle (id sub) (startTime sub) (endTime sub) newText
                  else sub)
      (nth_error prev k).
Proof. unfold updateSubtitleText. apply nth_error_map. Qed.

Lemma updateSubtitleText_no_match (prev : list Subtitle) :
  (forall sub, In sub prev -> id sub <> i) ->
  updateSubtitleText i newText prev = prev.
Proof.
  induction prev as [| sub rest IH]; intro Hno; [ reflexivity | ].
  simpl. destruct (String.eqb_spec (id sub) i) as [Heq | _].
  - exfalso. apply (Hno sub); [ left; reflexivity | exact Heq ].
  - f_equal. apply IH. intros x Hx. apply Hno. right. exact Hx.
Qed.

End EditText.

(** C9: [updateSubtitleText] keeps the length and the order of the list;
    a cue whose id matches keeps its id, start and end and gets exactly the
    new text, whatever that text is; every other cue is unchanged; and when
    no cue has the id the list is unchanged. *)
Theorem C9_updateSubtitleText_frame :
  forall (prev : list Subtitle) (i newText : string),
    List.length (updateSubtitleText i newText prev) = List.length prev
    /\ (forall k sub, nth_error prev k = Some sub ->
          exists sub',
            nth_error (updateSubtitleText i newText prev) k = Some sub'
            /\ id sub' = id sub
            /\ startTime sub' = startTime sub
            /\ endTime sub' = endTime sub
            /\ (id sub = i -> text sub' = newText)
            /\ (id sub <> i -> sub' = sub))
    /\ ((forall sub, In sub prev -> id sub <> i) ->
          updateSubtitleText i newText prev = prev).
Proof.
  intros prev i newText. split; [ apply updateSubtitleText_length | ].
  split; [ | apply updateSubtitleText_no_match ].
  intros k sub Hk. rewrite updateSubtitleText_nth, Hk. simpl.
  destruct (String.eqb_spec (id sub) i) as [Heq | Hne].
  - eexists. split; [ reflexivity | ]. simpl.
    repeat split; try reflexivity. intro Hc. contradiction.
  - exists sub. repeat split; try reflexivity. intro Hc. contradiction.
Qed.

Lemma C9_updateSubtitleText_frame_witness :
  exists sub',
    nth_error (updateSubtitleText "subtitle-1" EmptyString [cue02; cue24]) 1
    = Some sub'
    /\ id sub' = "subtitle-1" /\ startTime sub' = 2 /\ endTime sub' = 4
    /\ text sub' = EmptyString
    /\ updateSubtitleText "subtitle-9" "x" [cue02; cue24] = [cue02; cue24].
Proof.
  destruct (C9_updateSubtitleText_frame [cue02; cue24] "subtitle-1" EmptyString)
    as (_ & Hnth & _).
  destruct (Hnth 1%nat cue24 eq_refl) as (sub' & H1 & H2 & H3 & H4 & H5 & _).
  exists sub'.
  split; [ exact H1 | ]. split; [ exact H2 | ].
  split; [ exact H3 | ]. split; [ exact H4 | ].
  split; [ apply H5; reflexivity | ].
  apply (C9_updateSubtitleText_frame [cue02; cue24] "subtitle-9" "x").
  intros sub [H | [H | []]]; subst sub; discriminate.
Defined.

(* ================================================================== *)
(** ** Active-cue lookup *)
(* ================================================================== *)

Lemma covers_active (t : Q) (c : Subtitle) :
  covers t c = true <-> active t c.
Proof.
  unfold covers, active. rewrite andb_true_iff, !Qle_bool_iff. reflexivity.
Qed.

Lemma currentSub_some (t : Q) (subs : list Subtitle) (c : Subtitle) :
  currentSub t subs = Some c <->
  exists pre post, subs = (pre ++ c :: post)%list
                   /\ Forall (fun x => ~ active t x) pre /\ active t c.
Proof.
  unfold currentSub. induction subs as [| x rest IH]; simpl.
  - split; [ discriminate | ].
    intros (pre & post & H & _). destruct pre; discriminate H.
  - destruct (covers t x) eqn:Hx.
    + split.
      * intro H. injection H as <-. exists [], rest. simpl.
        repeat split; [ constructor | | ]; apply covers_active in Hx; apply Hx.
      * intros (pre & post & Heq & Hpre & Hc).
        destruct pre as [| y pre']; simpl in Heq; injection Heq as -> ->.
        -- reflexivity.
        -- inversion Hpre as [| ? ? Hy _]; subst.
           exfalso. apply Hy. apply covers_active. exact Hx.
    + rewrite IH. split.
      * intros (pre & post & -> & Hpre & Hc).
        exists (x :: pre), post. simpl. repeat split; try apply Hc.
        constructor; [ | exact Hpre ].
        intro Ha. apply covers_active in Ha. congruence.
      * intros (pre & post & Heq & Hpre & Hc).
        destruct pre as [| y pre']; simpl in Heq; injection Heq as -> ->.
        -- apply covers_active in Hc. congruence.
        -- exists pre', post. inversion Hpre; subst. auto.
Qed.

Lemma currentSub_none (t : Q) (subs : list Subtitle) :
  currentSub t subs = None <-> Forall (fun x => ~ active t x) subs.
Proof.
  unfold currentSub. induction subs as [| x rest IH]; simpl.
  - split; [ constructor | reflexivity ].
  - destruct (covers t x) eqn:Hx.
    + split; [ discriminate | ].
      intro H. inversion H as [| ? ? Hn _]; subst.
      exfalso. apply Hn. apply covers_active. exact Hx.
    + rewrite IH. split.
      * intro H. constructor; [ | exact H ].
        intro Ha. apply covers_active in Ha. congruence.
      * intro H. inversion H; assumption.
Qed.

Lemma id_or_null_some (c : Subtitle) :
  id c <> EmptyString -> id_or_null (Some c) = Some (id c).
Proof.
  intro H. simpl. destruct (String.eqb_spec (id c) EmptyString);
    [ contradiction | reflexivity ].
Qed.

(** The ids that the program gives to cues are never empty, and the edit
    operations keep the ids. *)
Lemma segment_loop_ids (fuel : nat) (words : list string) (duration : Q)
      (i : nat) (acc : list Subtitle) :
  Forall (fun c => id c <> EmptyString) acc ->
  Forall (fun c => id c <> EmptyString)
         (segment_loop fuel words duration i acc).
Proof.
  revert i acc. induction fuel as [| fuel IH]; intros i acc Hacc;
    cbn [segment_loop]; [ exact Hacc | ].
  destruct (i <? List.length words)%nat; [ | exact Hacc ].
  destruct (Qle_bool duration _); [ exact Hacc | ].
  apply IH. apply Forall_app. split; [ exact Hacc | ].
  constructor; [ discriminate | constructor ].
Qed.

Lemma redistribute_from_ids (index : nat) (tps duration : Q)
      (subs : list Subtitle) :
  map id (redistribute_from index tps duration subs) = map id subs.
Proof.
  revert index. induction subs as [| sub rest IH]; intro index; simpl;
    [ reflexivity | rewrite IH; reflexivity ].
Qed.

Lemma segment_ids (text : string) (duration : Q) :
  Forall (fun c => id c <> EmptyString) (segment text duration).
Proof.
  assert (Hp : Forall (fun c => id c <> EmptyString)
                      (provisional text duration)).
  { apply segment_loop_ids. constructor. }
  unfold segment, redistribute.
  destruct (0 <? List.length (provisional text duration))%nat;
    [ | exact Hp ].
  rewrite Forall_forall in *. intros c Hc.
  apply (in_map id) in Hc. rewrite redistribute_from_ids in Hc.
  apply in_map_iff in Hc. destruct Hc as (c0 & Hid & Hin).
  rewrite <- Hid. apply Hp. exact Hin.
Qed.

Lemma updateSubtitleText_ids (i newText : string) (prev : list Subtitle) :
  map id (updateSubtitleText i newText prev) = map id prev.
Proof.
  unfold updateSubtitleText. rewrite map_map. apply map_ext.
  intro sub. destruct (String.eqb (id sub) i); reflexivity.
Qed.

Lemma updateSubtitleTiming_ids (i : string) (a b : Q) (prev : list Subtitle) :
  map id (updateSubtitleTiming i a b prev) = map id prev.
Proof.
  unfold updateSubtitleTiming. rewrite map_map. apply map_ext.
  intro sub. destruct (String.eqb (id sub) i); reflexivity.
Qed.

(** C4: the cue found for a playback position [t] is the first cue of the
    list, in list order, with [startTime <= t <= endTime] (both bounds
    included), and there is none exactly when no cue satisfies it; the id
    stored by [updateTime] is [currentSub?.id || null], that is the id of
    that cue whenever the id is not the empty string; for the cues on
    [0,2] and [2,4] and [t = 2] it is the first of the two. *)
Theorem C4_active_cue_first_match :
  forall (subs : list Subtitle) (t : Q),
    (forall c, currentSub t subs = Some c <->
       exists pre post, subs = (pre ++ c :: post)%list
                        /\ Forall (fun x => ~ active t x) pre /\ active t c)
    /\ (currentSub t subs = None <-> Forall (fun x => ~ active t x) subs)
    /\ (forall st, subtitles st = subs ->
          currentSubtitleId (updateTime t st) = id_or_null (currentSub t subs))
    /\ (forall c, id c <> EmptyString -> id_or_null (Some c) = Some (id c))
    /\ currentSub 2 [cue02; cue24] = Some cue02
    /\ currentSubtitleId (updateTime 2 (state_of [cue02; cue24] 4 None))
       = Some "subtitle-0".
Proof.
  intros subs t.
  split; [ intro c; apply currentSub_some | ].
  split; [ apply currentSub_none | ].
  split; [ intros st <-; reflexivity | ].
  split; [ apply id_or_null_some | ].
  split; reflexivity.
Qed.

Lemma C4_active_cue_first_match_witness :
  currentSub 2 [cue02; cue24] = Some cue02
  /\ currentSubtitleId (updateTime 2 (state_of [cue02; cue24] 4 None))
     = id_or_null (currentSub 2 [cue02; cue24]).
Proof.
  destruct (C4_active_cue_first_match [cue02; cue24] 2) as (Hs & _ & Hid & _).
  split.
  - apply Hs. exists [], [cue24]. simpl.
    repeat split; [ constructor | | ]; simpl; lra.
  - apply Hid. reflexivity.
Defined.

(* ================================================================== *)
(** ** Nudging the end of a cue *)
(* ================================================================== *)

Lemma updateSubtitleTiming_In (i : string) (a b : Q)
      (prev : list Subtitle) (c : Subtitle) :
  In c (updateSubtitleTiming i a b prev) ->
  id c = i -> startTime c = a /\ endTime c = b.
Proof.
  unfold updateSubtitleTiming. rewrite in_map_iff.
  intros (sub & Hsub & _) Hid.
  destruct (String.eqb_spec (id sub) i) as [_ | Hne].
  - subst c. simpl. split; reflexivity.
  - subst c. contradiction.
Qed.

(** The edited cue is in the list and carries the selected id. *)
Lemma edited_selected (st : State) (subtitle : Subtitle) :
  edited st = Some subtitle ->
  In subtitle (subtitles st) /\ selectedSubtitle st = Some (id subtitle).
Proof.
  unfold edited. destruct (selectedSubtitle st) as [sel |]; [ | discriminate ].
  destruct (String.eqb sel EmptyString); [ discriminate | ].
  intro H. apply find_some in H. destruct H as [Hin H].
  apply String.eqb_eq in H. subst sel. split; [ exact Hin | reflexivity ].
Qed.

(** C6, as stated, fails: a cue on [0, 0.5] has [start < end], and
    "End -0.5s" moves its end to exactly [start + 0.1]. *)
Lemma C6_end_minus_reaches_the_bound :
  ~ (forall c : Subtitle,
       startTime c < endTime c -> ~ endMinus c <= startTime c + 0.1).
Proof.
  intro H. apply (H (mkSubtitle "subtitle-0" 0 0.5 "one")).
  - reflexivity.
  - vm_compute. discriminate.
Qed.

(** C6, amended: "End -0.5s" never produces an end below [start + 0.1]
    (it produces exactly [start + 0.1] whenever [end - 0.5] is not above
    it), and "End +0.5s" never produces an end above the total duration;
    this holds for the bound each button computes for the edited cue and
    for every cue with its id in the list after the click. *)
Theorem C6_nudge_end_clamped :
  forall (c : Subtitle) (totalDuration : Q),
    startTime c + 0.1 <= endMinus c
    /\ (endTime c - 0.5 <= startTime c + 0.1 ->
        endMinus c == startTime c + 0.1)
    /\ endPlus totalDuration c <= totalDuration
    /\ (forall st c',
          edited st = Some c ->
          In c' (subtitles (clickEndMinus st)) -> id c' = id c ->
          endTime c' = endMinus c /\ startTime c' + 0.1 <= endTime c')
    /\ (forall st c',
          edited st = Some c -> duration st = totalDuration ->
          In c' (subtitles (clickEndPlus st)) -> id c' = id c ->
          endTime c' = endPlus totalDuration c
          /\ endTime c' <= totalDuration).
Proof.
  intros c totalDuration.
  split; [ apply Q.le_max_l | ].
  split; [ intro H; apply Q.max_l; exact H | ].
  split; [ apply Q.le_min_l | ].
  split.
  - intros st c' He Hin Hid. unfold clickEndMinus in Hin. rewrite He in Hin.
    simpl in Hin. apply updateSubtitleTiming_In in Hin; [ | exact Hid ].
    destruct Hin as [-> ->]. split; [ reflexivity | apply Q.le_max_l ].
  - intros st c' He Hdur Hin Hid. unfold clickEndPlus in Hin.
    rewrite He, Hdur in Hin.
    simpl in Hin. apply updateSubtitleTiming_In in Hin; [ | exact Hid ].
    destruct Hin as [_ ->]. split; [ reflexivity | apply Q.le_min_l ].
Qed.

Lemma C6_nudge_end_clamped_witness :
  endMinus (mkSubtitle "subtitle-0" 0 0.5 "one") == 0.1
  /\ exists c',
       In c' (subtitles (clickEndPlus
                           (state_of [cue02; cue24] 4 (Some "subtitle-1"))))
       /\ id c' = "subtitle-1" /\ endTime c' <= 4.
Proof.
  split.
  - destruct (C6_nudge_end_clamped (mkSubtitle "subtitle-0" 0 0.5 "one") 4)
      as (_ & H & _).
    rewrite H; [ reflexivity | vm_compute; discriminate ].
  - exists (mkSubtitle "subtitle-1" 2 (endPlus 4 cue24) "two").
    assert (Hin : In (mkSubtitle "subtitle-1" 2 (endPlus 4 cue24) "two")
                     (subtitles (clickEndPlus
                        (state_of [cue02; cue24] 4 (Some "subtitle-1"))))).
    { right. left. reflexivity. }
    split; [ exact Hin | ]. split; [ reflexivity | ].
    destruct (C6_nudge_end_clamped cue24 4) as (_ & _ & _ & _ & H).
    apply (proj2 (H (state_of [cue02; cue24] 4 (Some "subtitle-1"))
                    (mkSubtitle "subtitle-1" 2 (endPlus 4 cue24) "two")
                    eq_refl eq_refl Hin eq_refl)).
Defined.

(* ================================================================== *)
(** ** A failed transcription *)
(* ================================================================== *)

Lemma progressTicks_subtitles (n : nat) (st : State) :
  subtitles (progressTicks n st) = subtitles st.
Proof.
  revert st. induction n as [| n IH]; intro st; simpl; [ reflexivity | ].
  rewrite IH. reflexivity.
Qed.

Lemma progressTicks_alerts (n : nat) (st : State) :
  alerts (progressTicks n st) = alerts st.
Proof.
  revert st. induction n as [| n IH]; intro st; simpl; [ reflexivity | ].
  rewrite IH. reflexivity.
Qed.

(** C7: when the provider call rejects (or already the reading of the file
    does), the cue list after [transcribeAudio] is the cue list before it,
    whatever it was and however often the progress timer fired; the run
    ends with [isTranscribing] false and the progress at 0, and one message
    was shown. *)
Theorem C7_failed_transcription_keeps_cues :
  forall (st : State) (ticks : nat) (fileRead reply : outcome string),
    subtitles (transcribeAudio fileRead ticks Rejected st) = subtitles st
    /\ subtitles (transcribeAudio Rejected ticks reply st) = subtitles st
    /\ (hasAudioFile st = true -> hasUser st = true ->
        let st' := transcribeAudio fileRead ticks Rejected st in
        isTranscribing st' = false
        /\ transcriptionProgress st' = 0%Z
        /\ alerts st'
           = (alerts st ++ ["Transcription failed. Please try again."])%list).
Proof.
  intros st ticks fileRead reply. unfold transcribeAudio.
  destruct (hasAudioFile st), (hasUser st); simpl;
    (split; [ | split ]); try discriminate; try reflexivity.
  - destruct fileRead; simpl; rewrite ?progressTicks_subtitles; reflexivity.
  - intros _ _. destruct fileRead; simpl; rewrite ?progressTicks_alerts;
      repeat split; reflexivity.
Qed.

Lemma C7_failed_transcription_keeps_cues_witness :
  subtitles (transcribeAudio (Resolved "UklGRg==") 3 Rejected
                             (state_of [cue02; cue24] 4 None))
  = [cue02; cue24]
  /\ isTranscribing (transcribeAudio (Resolved "UklGRg==") 3 Rejected
                                     (state_of [cue02; cue24] 4 None))
     = false.
Proof.
  destruct (C7_failed_transcription_keeps_cues
              (state_of [cue02; cue24] 4 None) 3
              (Resolved "UklGRg==") Rejected) as (H1 & _ & H3).
  split; [ exact H1 | ].
  apply (H3 eq_refl eq_refl).
Defined.

(* ================================================================== *)
(** ** Segmentation: the loop *)
(* ================================================================== *)

Section Loop.

Variables (words : list string) (duration : Q).

Lemma Qnat_le (a b : nat) : (a <= b)%nat -> Qnat a <= Qnat b.
Proof. intro H. unfold Qnat. rewrite <- Zle_Qle. lia. Qed.

Lemma Qnat_lt (a b : nat) : (a < b)%nat -> Qnat a < Qnat b.
Proof. intro H. unfold Qnat. rewrite <- Zlt_Qlt. lia. Qed.

Lemma Qnat_nonneg (a : nat) : 0 <= Qnat a.
Proof. apply (Qnat_le 0 a). lia. Qed.

Lemma window_start_nonneg (i : nat) :
  0 <= startTime (window_cue words duration i).
Proof.
  simpl. apply Qmult_le_0_compat; [ apply Qnat_nonneg | discriminate ].
Qed.

(** The cues pushed so far are a prefix of the result. *)
Lemma segment_loop_acc (fuel i : nat) (acc : list Subtitle) :
  segment_loop fuel words duration i acc
  = (acc ++ segment_loop fuel words duration i [])%list.
Proof.
  revert i acc. induction fuel as [| fuel IH]; intros i acc; simpl.
  - symmetry. apply app_nil_r.
  - destruct (i <? List.length words)%nat; [ | symmetry; apply app_nil_r ].
    destruct (Qle_bool duration _); [ symmetry; apply app_nil_r | ].
    rewrite IH. rewrite (IH _ [_]).
    rewrite <- app_assoc. reflexivity.
Qed.

(** A cue is pushed only while the window starts before the end of the
    audio, so a non-empty result needs a positive duration. *)
Lemma segment_loop_positive (fuel i : nat) :
  segment_loop fuel words duration i [] <> [] -> 0 < duration.
Proof.
  destruct fuel as [| fuel]; cbn [segment_loop]; [ nil_is_nil | ].
  destruct (i <? List.length words)%nat; [ | nil_is_nil ].
  destruct (Qle_bool duration _) eqn:Hbreak; [ nil_is_nil | ].
  intros _.
  assert (Hlt : startTime (window_cue words duration i) < duration).
  { apply Qnot_le_lt. intro Hle. apply Qle_bool_iff in Hle. congruence. }
  eapply Qle_lt_trans; [ apply window_start_nonneg | exact Hlt ].
Qed.


(** The loop leaves through its condition or through [break] before the
    bound on the iterations is reached: more fuel changes nothing. *)
Lemma segment_loop_fuel (fuel1 fuel2 i : nat) (acc : list Subtitle) :
  (List.length words <= i + wordsPerSegment * fuel1)%nat ->
  (List.length words <= i + wordsPerSegment * fuel2)%nat ->
  segment_loop fuel1 words duration i acc
  = segment_loop fuel2 words duration i acc.
Proof.
  unfold wordsPerSegment.
  revert fuel2 i acc. induction fuel1 as [| fuel1 IH]; intros fuel2 i acc H1 H2.
  - destruct fuel2 as [| fuel2]; simpl; [ reflexivity | ].
    destruct (Nat.ltb_spec i (List.length words)); [ lia | reflexivity ].
  - destruct fuel2 as [| fuel2]; simpl.
    + destruct (Nat.ltb_spec i (List.length words)); [ lia | reflexivity ].
    + destruct (i <? List.length words)%nat; [ | reflexivity ].
      destruct (Qle_bool duration _); [ reflexivity | ].
      apply IH; unfold wordsPerSegment in *; lia.
Qed.

End Loop.

(** The bound used by [provisional] is enough. *)
Lemma provisional_fuel (text : string) (duration : Q) (extra : nat) :
  provisional text duration
  = segment_loop (List.length (words_of text) + extra) (words_of text)
                 duration 0 [].
Proof.
  unfold provisional. apply segment_loop_fuel; unfold wordsPerSegment; lia.
Qed.

(* ================================================================== *)
(** ** Segmentation: the redistribution pass *)
(* ================================================================== *)

Lemma redistribute_from_length (index : nat) (tps duration : Q)
      (subs : list Subtitle) :
  List.length (redistribute_from index tps duration subs) = List.length subs.
Proof.
  revert index. induction subs as [| sub rest IH]; intro index; simpl;
    [ reflexivity | rewrite IH; reflexivity ].
Qed.

Lemma redistribute_from_nth (index : nat) (tps duration : Q)
      (subs : list Subtitle) (k : nat) (c : Subtitle) :
  nth_error (redistribute_from index tps duration subs) k = Some c ->
  (k < List.length subs)%nat
  /\ startTime c = Qnat (index + k) * tps
  /\ endTime c = Qmin (Qnat (index + k + 1) * tps) duration
  /\ exists sub, nth_error subs k = Some sub
                 /\ id c = id sub /\ text c = text sub.
Proof.
  revert index k. induction subs as [| sub rest IH]; intros index k H.
  - destruct k; discriminate H.
  - destruct k as [| k]; simpl in H.
    + injection H as <-. simpl. rewrite Nat.add_0_r.
      repeat split; try lia. exists sub. repeat split.
    + apply IH in H. destruct H as (Hk & Hs & He & Hsub).
      replace (index + S k)%nat with (S index + k)%nat by lia.
      simpl List.length. repeat split; try assumption. lia.
Qed.

Lemma redistribute_length (duration : Q) (subs : list Subtitle) :
  List.length (redistribute duration subs) = List.length subs.
Proof.
  unfold redistribute. destruct (0 <? List.length subs)%nat;
    [ apply redistribute_from_length | reflexivity ].
Qed.

(** Every cue after the pass: cue [k] of [N] runs from [k * (duration / N)]
    to [min ((k + 1) * (duration / N), duration)]. *)
Lemma redistribute_nth (duration : Q) (subs : list Subtitle)
      (k : nat) (c : Subtitle) :
  nth_error (redistribute duration subs) k = Some c ->
  let timePerSubtitle := span duration (List.length subs) in
  (k < List.length subs)%nat
  /\ startTime c = Qnat k * timePerSubtitle
  /\ endTime c = Qmin (Qnat (k + 1) * timePerSubtitle) duration.
Proof.
  unfold redistribute. intro H.
  destruct (Nat.ltb_spec 0 (List.length subs)) as [Hpos | Hzero].
  - apply redistribute_from_nth in H. simpl in H.
    destruct H as (Hk & Hs & He & _). auto.
  - destruct subs; [ destruct k; discriminate H | simpl in Hzero; lia ].
Qed.

Section UniformPartition.

Variables (duration : Q) (N : nat).
Hypothesis duration_pos : 0 < duration.
Hypothesis N_pos : (0 < N)%nat.

Lemma Qnat_N_nonzero : ~ Qnat N == 0.
Proof.
  intro H. pose proof (Qnat_lt 0 N N_pos) as Hlt.
  rewrite H in Hlt. apply (Qlt_irrefl _ Hlt).
Qed.

Lemma timePerSubtitle_pos : 0 < span duration N.
Proof.
  unfold span, Qdiv.
  apply Qmult_lt_0_compat; [ exact duration_pos | ].
  apply Qinv_lt_0_compat. apply (Qnat_lt 0 N N_pos).
Qed.

Lemma full_span : Qnat N * span duration N == duration.
Proof. unfold span. field. exact Qnat_N_nonzero. Qed.

Lemma span_le (k : nat) : (k <= N)%nat -> Qnat k * span duration N <= duration.
Proof.
  intro Hk. apply Qle_trans with (Qnat N * span duration N).
  - apply Qmult_le_compat_r; [ apply Qnat_le; exact Hk | ].
    apply Qlt_le_weak. exact timePerSubtitle_pos.
  - rewrite full_span. apply Qle_refl.
Qed.

Lemma span_lt (j k : nat) :
  (j < k)%nat -> Qnat j * span duration N < Qnat k * span duration N.
Proof.
  intro H. apply Qmult_lt_compat_r;
    [ exact timePerSubtitle_pos | apply Qnat_lt; exact H ].
Qed.

(** The clamp of the end is the identity on every span of the partition. *)
Lemma clamped_end (k : nat) :
  (k <= N)%nat ->
  Qmin (Qnat k * span duration N) duration == Qnat k * span duration N.
Proof. intro Hk. apply Q.min_l. apply span_le. exact Hk. Qed.

End UniformPartition.

(* ================================================================== *)
(** ** Segmentation: the tokens *)
(* ================================================================== *)

Lemma trimStart_blank (s : string) :
  blank s = true -> JS.trimStart s = EmptyString.
Proof.
  induction s as [| c s IH]; simpl; [ reflexivity | ].
  destruct (JS.is_whitespace c); simpl; [ exact IH | discriminate ].
Qed.

Lemma trimStart_not_blank (s : string) :
  blank s = false ->
  exists c r, JS.trimStart s = String c r /\ JS.is_whitespace c = false.
Proof.
  induction s as [| c s IH]; simpl; [ discriminate | ].
  destruct (JS.is_whitespace c) eqn:Hc; simpl.
  - exact IH.
  - intros _. exists c, s. split; [ reflexivity | exact Hc ].
Qed.

(** A piece survives the filter exactly when it is not blank. *)
Lemma kept_iff_not_blank (word : string) :
  (0 <? String.length (JS.trim word))%nat = negb (blank word).
Proof.
  unfold JS.trim. destruct (blank word) eqn:Hb.
  - rewrite (trimStart_blank _ Hb). reflexivity.
  - destruct (trimStart_not_blank _ Hb) as (c & r & -> & Hc).
    simpl. rewrite Hc. destruct (JS.trimEnd r); reflexivity.
Qed.

(** The pieces between the spaces are all blank exactly when the
    transcript is. *)
Lemma split_space_blank (s : string) :
  forallb blank (JS.split " " s) = blank s.
Proof.
  induction s as [| c s IH]; [ reflexivity | ].
  simpl. destruct (Ascii.eqb_spec c " ") as [-> | _].
  - simpl. exact IH.
  - destruct (JS.split " " s) as [| w ws]; simpl in *.
    + rewrite <- IH. rewrite !andb_true_r. reflexivity.
    + rewrite <- IH. rewrite andb_assoc. reflexivity.
Qed.

Lemma words_of_filter (s : string) :
  words_of s = filter (fun w => negb (blank w)) (JS.split " " s).
Proof.
  unfold words_of. apply filter_ext. intro w. apply kept_iff_not_blank.
Qed.

Lemma filter_negb_nil {A} (f : A -> bool) (l : list A) :
  filter (fun x => negb (f x)) l = [] <-> forallb f l = true.
Proof.
  induction l as [| x l IH]; simpl; [ tauto | ].
  destruct (f x); simpl; [ exact IH | ].
  split; discriminate.
Qed.

Lemma words_of_blank (s : string) :
  blank s = true -> words_of s = [].
Proof.
  intro H. rewrite words_of_filter. apply filter_negb_nil.
  rewrite split_space_blank. exact H.
Qed.


(** No token contains a space, and every token has a character that is
    not white space. *)
Lemma split_no_separator (sep : ascii) (s : string) :
  Forall (fun w => count_char sep w = 0%nat) (JS.split sep s).
Proof.
  induction s as [| c s IH]; simpl.
  - constructor; [ reflexivity | constructor ].
  - destruct (Ascii.eqb c sep) eqn:Hc.
    + constructor; [ reflexivity | exact IH ].
    + destruct (JS.split sep s) as [| w ws].
      * constructor; [ simpl; rewrite Hc; reflexivity | constructor ].
      * inversion IH; subst. constructor; [ | assumption ].
        simpl. rewrite Hc. assumption.
Qed.

Lemma words_of_tokens (s : string) :
  Forall (fun w => count_char " " w = 0%nat /\ blank w = false) (words_of s).
Proof.
  rewrite words_of_filter. apply Forall_forall. intros w Hw.
  apply filter_In in Hw. destruct Hw as [Hin Hnb]. split.
  - pose proof (split_no_separator " " s) as H.
    rewrite Forall_forall in H. apply H. exact Hin.
  - destruct (blank w); [ discriminate | reflexivity ].
Qed.

(** When the space is the only white space of the transcript, the tokens
    are those of a split on white space. *)
Lemma split_whitespace_pieces (s : string) :
  Forall (fun w => blank w = negb (0 <? String.length w)%nat)
         (Spec.split_whitespace s).
Proof.
  induction s as [| c s IH]; simpl.
  - constructor; [ reflexivity | constructor ].
  - destruct (JS.is_whitespace c) eqn:Hc.
    + constructor; [ reflexivity | exact IH ].
    + destruct (Spec.split_whitespace s) as [| w ws].
      * constructor; [ simpl; rewrite Hc; reflexivity | constructor ].
      * inversion IH; subst. constructor; [ | assumption ].
        simpl. rewrite Hc. reflexivity.
Qed.

Lemma split_space_is_split_whitespace (s : string) :
  only_spaces_as_whitespace s = true ->
  JS.split " " s = Spec.split_whitespace s.
Proof.
  induction s as [| c s IH]; simpl; [ reflexivity | ].
  intro H. apply andb_true_iff in H. destruct H as [Hc Hs].
  rewrite (IH Hs). destruct (Ascii.eqb_spec c " ") as [-> | Hne].
  - reflexivity.
  - rewrite orb_false_r in Hc. apply negb_true_iff in Hc. rewrite Hc.
    reflexivity.
Qed.

Lemma words_of_tokenize (s : string) :
  only_spaces_as_whitespace s = true -> words_of s = Spec.tokenize s.
Proof.
  intro H. rewrite words_of_filter, (split_space_is_split_whitespace _ H).
  unfold Spec.tokenize.
  pose proof (split_whitespace_pieces s) as Hp.
  induction (Spec.split_whitespace s) as [| w ws IH]; [ reflexivity | ].
  inversion Hp as [| ? ? Hw Hws]; subst. simpl.
  rewrite Hw, negb_involutive, (IH Hws). reflexivity.
Qed.

(** The pieces of a split: one more than there are separators, and the
    whole text when there is none. *)
Lemma split_length (sep : ascii) (s : string) :
  List.length (JS.split sep s) = S (count_char sep s).
Proof.
  induction s as [| c s IH]; simpl; [ reflexivity | ].
  destruct (Ascii.eqb c sep); simpl; [ rewrite IH; reflexivity | ].
  destruct (JS.split sep s); simpl in *; [ discriminate IH | exact IH ].
Qed.

Lemma split_no_sep (sep : ascii) (s : string) :
  count_char sep s = 0%nat -> JS.split sep s = [s].
Proof.
  induction s as [| c s IH]; simpl; [ reflexivity | ].
  destruct (Ascii.eqb c sep); simpl; [ discriminate | ].
  intro H. rewrite (IH H). reflexivity.
Qed.

Lemma split_app (sep : ascii) (a b : string) :
  count_char sep a = 0%nat ->
  JS.split sep (a ++ String sep b) = a :: JS.split sep b.
Proof.
  induction a as [| c a IH]; simpl.
  - intros _. rewrite Ascii.eqb_refl. reflexivity.
  - destruct (Ascii.eqb c sep); simpl; [ discriminate | ].
    intro H. rewrite (IH H). reflexivity.
Qed.

Lemma count_char_app (c : ascii) (a b : string) :
  count_char c (a ++ b) = (count_char c a + count_char c b)%nat.
Proof.
  induction a as [| x a IH]; simpl; [ reflexivity | ].
  rewrite IH. lia.
Qed.

(** The text is cut at every separator. *)
Lemma split_at_separator (sep : ascii) (a b : string) :
  JS.split sep (a ++ String sep b) = (JS.split sep a ++ JS.split sep b)%list.
Proof.
  induction a as [| c a IH]; simpl.
  - rewrite Ascii.eqb_refl. reflexivity.
  - rewrite IH. destruct (Ascii.eqb c sep); [ reflexivity | ].
    destruct (JS.split sep a) as [| w ws] eqn:Hs; [ | reflexivity ].
    pose proof (split_length sep a) as Hl. rewrite Hs in Hl. discriminate Hl.
Qed.

(** Every space separates: the tokens of a text with a space in it are
    those before the space followed by those after it. *)
Lemma words_of_space (before after : string) :
  words_of (before ++ " " ++ after)
  = (words_of before ++ words_of after)%list.
Proof.
  rewrite !words_of_filter.
  change (before ++ " " ++ after) with (before ++ String " " after).
  rewrite split_at_separator. apply filter_app.
Qed.

(** Nothing but the space separates: a text without a space is one token,
    whatever other white space (TAB, line feed, ...) it holds, unless it is
    blank. *)
Lemma words_of_one_piece (piece : string) :
  count_char " " piece = 0%nat -> blank piece = false ->
  words_of piece = [piece].
Proof.
  intros Hs Hb. rewrite words_of_filter, (split_no_sep _ _ Hs).
  simpl. rewrite Hb. reflexivity.
Qed.

Lemma blank_app (a b : string) : blank (a ++ b) = blank a && blank b.
Proof.
  induction a as [| c a IH]; simpl; [ reflexivity | ].
  rewrite IH. apply andb_assoc.
Qed.

(** A character other than the space, white space or not, joins what is
    around it into one token. *)
Lemma words_of_joined (a b : string) (c : ascii) :
  c <> " "%char ->
  count_char " " a = 0%nat -> count_char " " b = 0%nat ->
  blank (a ++ String c b) = false ->
  words_of (a ++ String c b) = [a ++ String c b].
Proof.
  intros Hc Ha Hb Hnb. apply words_of_one_piece; [ | exact Hnb ].
  rewrite count_char_app. simpl.
  destruct (Ascii.eqb_spec c " ") as [-> | _]; [ contradiction | ].
  rewrite Ha, Hb. reflexivity.
Qed.

(** C8, as stated, fails: a TAB is white space but does not separate
    tokens; "one<TAB>two" is one token for the code and two for a split on
    white space. *)
Lemma C8_tab_does_not_separate :
  ~ (forall text : string, words_of text = Spec.tokenize text).
Proof.
  intro H. specialize (H transcript_tab). vm_compute in H. discriminate H.
Qed.

(** C8, amended: the transcript is split at the space character (U+0020),
    at every one of them and nowhere else, and the pieces that are empty or
    all white space are discarded.  So the tokens are the non-blank pieces
    between the spaces; a space cuts the text in two; a text without a
    space that is not blank is one token, whatever other white space (TAB,
    line feed) it holds, so that a character other than the space, white
    space or not, stays inside its token; no token contains a space and
    every token has a character that is not white space; and when the space
    is the only white space of the transcript the tokens are those of a
    split on white space.
    For every transcript that is empty or all white space there are no
    tokens, the cue list is empty, and a successful run of
    [transcribeAudio] stores the empty list. *)
Theorem C8_tokens_and_blank_transcript :
  forall (text : string) (totalDuration : Q),
    words_of text
    = filter (fun piece => negb (blank piece)) (JS.split " " text)
    /\ (forall before after : string,
           words_of (before ++ " " ++ after)
           = (words_of before ++ words_of after)%list)
    /\ (forall piece : string,
           count_char " " piece = 0%nat -> blank piece = false ->
           words_of piece = [piece])
    /\ (forall (a b : string) (c : ascii),
           c <> " "%char ->
           count_char " " a = 0%nat -> count_char " " b = 0%nat ->
           blank (a ++ String c b) = false ->
           words_of (a ++ String c b) = [a ++ String c b])
    /\ Forall (fun w => count_char " " w = 0%nat /\ blank w = false)
              (words_of text)
    /\ (only_spaces_as_whitespace text = true ->
        words_of text = Spec.tokenize text)
    /\ (blank text = true ->
        words_of text = []
        /\ segment text totalDuration = []
        /\ forall st base64Audio ticks,
             hasAudioFile st = true -> hasUser st = true ->
             duration st = totalDuration ->
             subtitles (transcribeAudio (Resolved base64Audio) ticks
                                        (Resolved text) st) = []).
Proof.
  intros text totalDuration.
  split; [ apply words_of_filter | ].
  split; [ apply words_of_space | ].
  split; [ apply words_of_one_piece | ].
  split; [ intros a b c; apply words_of_joined | ].
  split; [ apply words_of_tokens | ].
  split; [ apply words_of_tokenize | ].
  intro Hb. pose proof (words_of_blank _ Hb) as Hw.
  assert (Hs : forall d, segment text d = []).
  { intro d. unfold segment, provisional. rewrite Hw. reflexivity. }
  split; [ exact Hw | ]. split; [ apply Hs | ].
  intros st base64Audio ticks Hf Hu Hd. unfold transcribeAudio.
  rewrite Hf, Hu. simpl. apply Hs.
Qed.

Lemma C8_tokens_and_blank_transcript_witness :
  words_of transcript_tab = [transcript_tab]
  /\ words_of "a  b" = Spec.tokenize "a  b"
  /\ segment (String "009"%char " ") 10 = [].
Proof.
  split; [ | split ].
  - refine (proj1 (proj2 (proj2
              (C8_tokens_and_blank_transcript transcript_tab 10)))
              transcript_tab _ _); reflexivity.
  - refine (proj1 (proj2 (proj2 (proj2 (proj2 (proj2
              (C8_tokens_and_blank_transcript "a  b" 10)))))) _).
    reflexivity.
  - refine (proj1 (proj2 ((proj2 (proj2 (proj2 (proj2 (proj2 (proj2
              (C8_tokens_and_blank_transcript (String "009"%char " ") 10)))))))
              _))).
    reflexivity.
Defined.

(* ================================================================== *)
(** ** Segmentation: the bounds of the result *)
(* ================================================================== *)

(** Cue [k] of the [N] cues of the result: there is time to distribute,
    and the cue runs from [k * (duration / N)] to the clamped
    [(k + 1) * (duration / N)]. *)
Lemma segment_nth (text : string) (duration : Q) (k : nat) (c : Subtitle) :
  nth_error (segment text duration) k = Some c ->
  let N := List.length (segment text duration) in
  0 < duration /\ (k < N)%nat
  /\ startTime c = Qnat k * span duration N
  /\ endTime c = Qmin (Qnat (k + 1) * span duration N) duration.
Proof.
  unfold segment. intro H. rewrite redistribute_length.
  apply redistribute_nth in H. destruct H as (Hk & Hs & He).
  repeat split; try assumption.
  apply (segment_loop_positive (words_of text) duration
                               (List.length (words_of text)) 0).
  fold (provisional text duration).
  destruct (provisional text duration); [ simpl in Hk; lia | discriminate ].
Qed.



(** *** The reading in doubles *)

(** The loop of the reading in doubles leaves through its condition or
    through [break] before the bound on the iterations is reached. *)
Lemma doubles_segment_loop_fuel (words : list string)
      (duration : Doubles.double) (fuel1 fuel2 i : nat)
      (acc : list Doubles.Cue) :
  (List.length words <= i + wordsPerSegment * fuel1)%nat ->
  (List.length words <= i + wordsPerSegment * fuel2)%nat ->
  Doubles.segment_loop fuel1 words duration i acc
  = Doubles.segment_loop fuel2 words duration i acc.
Proof.
  unfold wordsPerSegment.
  revert fuel2 i acc. induction fuel1 as [| fuel1 IH]; intros fuel2 i acc H1 H2.
  - destruct fuel2 as [| fuel2]; simpl; [ reflexivity | ].
    destruct (Nat.ltb_spec i (List.length words)); [ lia | reflexivity ].
  - destruct fuel2 as [| fuel2]; simpl.
    + destruct (Nat.ltb_spec i (List.length words)); [ lia | reflexivity ].
    + destruct (i <? List.length words)%nat; [ | reflexivity ].
      destruct (Doubles.geb _ duration); [ reflexivity | ].
      apply IH; unfold wordsPerSegment in *; lia.
Qed.

Lemma doubles_provisional_fuel (transcript : string)
      (duration : Doubles.double) (extra : nat) :
  Doubles.provisional transcript duration
  = Doubles.segment_loop (List.length (words_of transcript) + extra)
                         (words_of transcript) duration 0 [].
Proof.
  unfold Doubles.provisional.
  apply doubles_segment_loop_fuel; unfold wordsPerSegment; lia.
Qed.




















(* ================================================================== *)
(** ** Decimal text of an integer and [parseInt] *)
(* ================================================================== *)

Section Digits.

Import Decimal.

Lemma read_digits_all (s : string) (acc : Z) :
  all_digits s = true ->
  JS.read_digits JS.digit_value 10 (Some acc) s = Some (digits_acc acc s).
Proof.
  revert acc. induction s as [| c s IH]; intros acc H; simpl in *;
    [ reflexivity | ].
  destruct (JS.digit_value c) as [d |]; [ | discriminate H ].
  apply IH. exact H.
Qed.

Lemma digit_not_whitespace (c : ascii) (d : Z) :
  JS.digit_value c = Some d ->
  JS.is_whitespace c = false /\ JS.is_x c = false
  /\ c <> "-"%char /\ c <> "+"%char /\ c <> ":"%char /\ c <> "."%char.
Proof.
  unfold JS.digit_value, JS.is_whitespace, JS.is_x. intro H.
  destruct ((48 <=? nat_of_ascii c) && (nat_of_ascii c <=? 57))%nat eqn:Hr;
    [ | discriminate H ].
  apply andb_true_iff in Hr. destruct Hr as [Hlo Hhi].
  apply Nat.leb_le in Hlo. apply Nat.leb_le in Hhi.
  repeat split;
    try (intros ->; vm_compute in Hlo, Hhi; lia);
    clear H; revert Hlo Hhi; generalize (nat_of_ascii c); intros n Hlo Hhi;
    repeat match goal with
           | |- context [ (?a <=? ?b)%nat ] => destruct (Nat.leb_spec a b)
           | |- context [ (?a =? ?b)%nat ] => destruct (Nat.eqb_spec a b)
           end; simpl; try reflexivity; lia.
Qed.

(** [parseInt] on a non-empty string of digits. *)
Lemma parseInt_digits (s : string) :
  all_digits s = true -> s <> EmptyString ->
  JS.parseInt s = Some (digits_acc 0 s).
Proof.
  intros H Hne. destruct s as [| c s]; [ contradiction | ].
  pose proof H as Hall. simpl in H.
  destruct (JS.digit_value c) as [d |] eqn:Hc; [ | discriminate H ].
  destruct (digit_not_whitespace _ _ Hc) as (Hws & _ & Hm & Hp & _).
  unfold JS.parseInt. simpl JS.trimStart. rewrite Hws.
  assert (Hmag : JS.parse_magnitude (String c s)
                 = Some (digits_acc 0 (String c s))).
  { assert (Hdec : JS.read_digits JS.digit_value 10 None (String c s)
                   = Some (digits_acc 0 (String c s))).
    { simpl. rewrite Hc. apply read_digits_all. exact H. }
    unfold JS.parse_magnitude.
    destruct (Ascii.eqb_spec c "0") as [-> | Hnz].
    - destruct s as [| x s']; [ exact Hdec | ].
      simpl in H. destruct (JS.digit_value x) as [dx |] eqn:Hx;
        [ | discriminate H ].
      destruct (digit_not_whitespace _ _ Hx) as (_ & Hnx & _).
      rewrite Hnx. exact Hdec.
    - destruct c as [[] [] [] [] [] [] [] []]; try exact Hdec.
      exfalso. apply Hnz. reflexivity. }
  destruct (Ascii.eqb_spec c "-") as [-> | _]; [ congruence | ].
  destruct (Ascii.eqb_spec c "+") as [-> | _]; [ congruence | ].
  destruct c as [[] [] [] [] [] [] [] []]; try exact Hmag; congruence.
Qed.

(** Leading zeros do not change the number. *)
Lemma digits_acc_zeros (k : nat) (s : string) :
  digits_acc 0 (JS.repeat_char k "0" ++ s) = digits_acc 0 s.
Proof. induction k as [| k IH]; simpl; [ reflexivity | exact IH ]. Qed.

Lemma all_digits_app (a b : string) :
  all_digits (a ++ b) = all_digits a && all_digits b.
Proof.
  induction a as [| c a IH]; simpl; [ reflexivity | ].
  destruct (JS.digit_value c); [ exact IH | reflexivity ].
Qed.

Lemma all_digits_zeros (k : nat) : all_digits (JS.repeat_char k "0") = true.
Proof. induction k as [| k IH]; simpl; [ reflexivity | exact IH ]. Qed.

(** The digits that [toString] prints for a positive number. *)
Lemma all_digits_uint (d : uint) :
  all_digits (NilEmpty.string_of_uint d) = true.
Proof. induction d; simpl; auto. Qed.

Lemma digits_acc_uint_pos (d : uint) (acc : positive) :
  digits_acc (Z.pos acc) (NilEmpty.string_of_uint d)
  = Z.pos (Pos.of_uint_acc d acc).
Proof.
  revert acc. induction d; intro acc; cbn [NilEmpty.string_of_uint digits_acc];
    [ reflexivity | .. ];
    match goal with
    | |- context [ JS.digit_value ?c ] =>
        let v := eval vm_compute in (JS.digit_value c) in
        change (JS.digit_value c) with v
    end; cbv iota; cbn [Pos.of_uint_acc]; rewrite <- IHd; f_equal; lia.
Qed.

Lemma digits_acc_uint (d : uint) :
  digits_acc 0 (NilEmpty.string_of_uint d) = Z.of_N (Pos.of_uint d).
Proof.
  induction d; cbn [NilEmpty.string_of_uint digits_acc Pos.of_uint];
    [ reflexivity | .. ];
    match goal with
    | |- context [ JS.digit_value ?c ] =>
        let v := eval vm_compute in (JS.digit_value c) in
        change (JS.digit_value c) with v
    end; cbv iota;
    [ exact IHd | .. ];
    match goal with
    | |- digits_acc ?z _ = _ =>
        let v := eval vm_compute in z in change z with v
    end; rewrite digits_acc_uint_pos; reflexivity.
Qed.

Lemma toString_nonneg (z : Z) :
  (0 <= z)%Z ->
  all_digits (JS.toString z) = true
  /\ JS.toString z <> EmptyString
  /\ digits_acc 0 (JS.toString z) = z.
Proof.
  intro Hz. destruct z as [| p | p]; [ | | lia ].
  - repeat split. discriminate.
  - unfold JS.toString. cbn [Z.to_int NilZero.string_of_int].
    pose proof (DecimalPos.Unsigned.to_uint_nonnil p) as Hnn.
    assert (E : NilZero.string_of_uint (Pos.to_uint p)
                = NilEmpty.string_of_uint (Pos.to_uint p)).
    { unfold NilZero.string_of_uint.
      destruct (Pos.to_uint p); [ contradiction | reflexivity .. ]. }
    rewrite E. split; [ apply all_digits_uint | ]. split.
    + destruct (Pos.to_uint p); [ contradiction | discriminate .. ].
    + rewrite digits_acc_uint, DecimalPos.Unsigned.of_to. reflexivity.
Qed.

(** [parseInt] reads back a zero-padded non-negative integer. *)
Lemma parseInt_padStart (n : nat) (z : Z) :
  (0 <= z)%Z ->
  JS.parseInt (JS.padStart n "0" (JS.toString z)) = Some z.
Proof.
  intro Hz. destruct (toString_nonneg z Hz) as (Hall & Hne & Hval).
  unfold JS.padStart. rewrite parseInt_digits.
  - rewrite digits_acc_zeros, Hval. reflexivity.
  - rewrite all_digits_app, all_digits_zeros, Hall. reflexivity.
  - destruct (JS.repeat_char _ _); simpl; [ exact Hne | discriminate ].
Qed.

Lemma padStart_all_digits (n : nat) (z : Z) :
  (0 <= z)%Z -> all_digits (JS.padStart n "0" (JS.toString z)) = true.
Proof.
  intro Hz. destruct (toString_nonneg z Hz) as (Hall & _).
  unfold JS.padStart. rewrite all_digits_app, all_digits_zeros, Hall.
  reflexivity.
Qed.

End Digits.

(* ================================================================== *)
(** ** [parseTime] *)
(* ================================================================== *)

Lemma all_digits_no_char (c : ascii) (s : string) :
  JS.digit_value c = None -> all_digits s = true -> count_char c s = 0%nat.
Proof.
  intro Hc. induction s as [| x s IH]; simpl; [ reflexivity | ].
  destruct (JS.digit_value x) eqn:Hx; [ | discriminate ].
  intro H. destruct (Ascii.eqb_spec x c) as [-> | _]; [ congruence | ].
  simpl. apply IH. exact H.
Qed.

(** Without exactly one colon the result is 0. *)
Lemma parseTime_not_two_parts (s : string) :
  count_char ":" s <> 1%nat -> parseTime s = 0.
Proof.
  intro H. unfold parseTime. pose proof (split_length ":" s) as Hlen.
  destruct (JS.split ":" s) as [| p0 [| p1 [| p2 rest]]]; try reflexivity.
  simpl in Hlen. exfalso. apply H. lia.
Qed.

(** With exactly one colon the two parts are read leniently. *)
Lemma parseTime_two_parts (part0 part1 : string) :
  count_char ":" part0 = 0%nat -> count_char ":" part1 = 0%nat ->
  parseTime (part0 ++ ":" ++ part1) = lenient part0 part1.
Proof.
  intros H0 H1. unfold parseTime. simpl append.
  rewrite (split_app ":" _ _ H0), (split_no_sep ":" _ H1). reflexivity.
Qed.

Lemma milliseconds_below_1000 : milliseconds_read_back 1000 = true.
Proof. vm_compute. reflexivity. Qed.

Lemma parse_milliseconds_padded (ms : Z) :
  (0 <= ms < 1000)%Z ->
  parse_milliseconds (Some (JS.padStart 3 "0" (JS.toString ms))) = ms.
Proof.
  intro H. pose proof milliseconds_below_1000 as Hall.
  unfold milliseconds_read_back in Hall. rewrite forallb_forall in Hall.
  specialize (Hall (Z.to_nat ms)). rewrite Z2Nat.id in Hall by lia.
  apply Z.eqb_eq. apply Hall. apply in_seq. lia.
Qed.

(** [parseTime] reads back the three fields of a rendered time. *)
Lemma parseTime_render (mins secs ms : Z) :
  (0 <= mins)%Z -> (0 <= secs)%Z -> (0 <= ms < 1000)%Z ->
  parseTime (render mins secs ms)
  = inject_Z mins * 60 + inject_Z secs + inject_Z ms / 1000.
Proof.
  intros Hm Hs Hms. unfold render.
  pose proof (padStart_all_digits 2 mins Hm) as Dm.
  pose proof (padStart_all_digits 2 secs Hs) as Ds.
  pose proof (padStart_all_digits 3 ms (proj1 Hms)) as Dms.
  set (A := JS.padStart 2 "0" (JS.toString mins)) in *.
  set (B := JS.padStart 2 "0" (JS.toString secs)) in *.
  set (C := JS.padStart 3 "0" (JS.toString ms)) in *.
  rewrite parseTime_two_parts.
  - unfold lenient. simpl append.
    rewrite (split_app "." B C), (split_no_sep "." C);
      try (apply all_digits_no_char; [ reflexivity | assumption ]).
    simpl hd. simpl nth_error. unfold A, B, C.
    rewrite !parseInt_padStart by assumption.
    rewrite parse_milliseconds_padded by assumption. reflexivity.
  - apply all_digits_no_char; [ reflexivity | assumption ].
  - simpl append. rewrite count_char_app. simpl.
    rewrite !(all_digits_no_char ":") by (try reflexivity; assumption).
    reflexivity.
Qed.




(* ================================================================== *)
(** ** Round trip of the time format *)
(* ================================================================== *)

Section RoundTrip.

Variable t : Q.
Hypothesis t_nonneg : 0 <= t.

Lemma Qtrunc_nonneg (q : Q) : 0 <= q -> JS.Qtrunc q = Qfloor q.
Proof.
  intro H. unfold JS.Qtrunc. apply Qle_bool_iff in H. rewrite H. reflexivity.
Qed.

Lemma rem_60 : JS.rem t 60 == t - 60 * inject_Z (minutes_field t).
Proof.
  unfold JS.rem. rewrite Qtrunc_nonneg; [ reflexivity | ].
  apply Qle_shift_div_l; [ reflexivity | ]. lra.
Qed.

Lemma rem_1 : JS.rem t 1 == t - inject_Z (Qfloor t).
Proof.
  unfold JS.rem. rewrite Qtrunc_nonneg.
  - assert (E : t / 1 == t) by field. rewrite E. ring.
  - apply Qle_shift_div_l; [ reflexivity | ]. lra.
Qed.

Lemma mins_bounds :
  inject_Z (minutes_field t) * 60 <= t
  /\ t < inject_Z (minutes_field t) * 60 + 60.
Proof.
  pose proof (Qfloor_le (t / 60)) as Hlo.
  pose proof (Qlt_floor (t / 60)) as Hhi.
  fold (minutes_field t) in Hlo, Hhi. rewrite inject_Z_plus in Hhi.
  change (inject_Z 1) with 1 in Hhi.
  assert (E : t / 60 == t * (1 # 60)) by reflexivity.
  rewrite E in Hlo, Hhi. split; lra.
Qed.

Lemma secs_bounds :
  inject_Z (minutes_field t) * 60 + inject_Z (seconds_field t) <= t
  /\ t < inject_Z (minutes_field t) * 60 + inject_Z (seconds_field t) + 1.
Proof.
  pose proof (Qfloor_le (JS.rem t 60)) as Hlo.
  pose proof (Qlt_floor (JS.rem t 60)) as Hhi.
  fold (seconds_field t) in Hlo, Hhi. rewrite inject_Z_plus in Hhi.
  rewrite rem_60 in Hlo, Hhi.
  change (inject_Z 1) with 1 in Hhi. split; lra.
Qed.

(** The whole seconds are the minutes and the seconds of the text. *)
Lemma floor_is_mins_secs :
  Qfloor t = (minutes_field t * 60 + seconds_field t)%Z.
Proof.
  pose proof (Qfloor_le t) as Hlo. pose proof (Qlt_floor t) as Hhi.
  rewrite inject_Z_plus in Hhi. change (inject_Z 1) with 1 in Hhi.
  destruct secs_bounds as [Slo Shi].
  set (m := minutes_field t) in *. set (sc := seconds_field t) in *.
  assert (H1 : inject_Z (Qfloor t) < inject_Z (m * 60 + sc + 1)).
  { rewrite !inject_Z_plus, inject_Z_mult.
    change (inject_Z 60) with 60. change (inject_Z 1) with 1. lra. }
  assert (H2 : inject_Z (m * 60 + sc) < inject_Z (Qfloor t + 1)).
  { rewrite !inject_Z_plus, inject_Z_mult.
    change (inject_Z 60) with 60. change (inject_Z 1) with 1. lra. }
  rewrite <- Zlt_Qlt in H1, H2. lia.
Qed.

Lemma ms_bounds :
  inject_Z (Qfloor t) + inject_Z (milliseconds_field t) / 1000 <= t
  /\ t < inject_Z (Qfloor t) + inject_Z (milliseconds_field t) / 1000 + 0.001.
Proof.
  pose proof (Qfloor_le (JS.rem t 1 * 1000)) as Hlo.
  pose proof (Qlt_floor (JS.rem t 1 * 1000)) as Hhi.
  fold (milliseconds_field t) in Hlo, Hhi. rewrite inject_Z_plus in Hhi.
  rewrite rem_1 in Hlo, Hhi.
  change (inject_Z 1) with 1 in Hhi.
  set (x := inject_Z (milliseconds_field t) / 1000).
  assert (Hx : inject_Z (milliseconds_field t) == x * 1000)
    by (unfold x; field).
  rewrite Hx in Hlo, Hhi. clearbody x.
  split; lra.
Qed.



End RoundTrip.





(* ================================================================== *)
(** ** Segmentation: which windows become cues *)
(* ================================================================== *)

Section Windows.

Variables (words : list string) (duration : Q).

Lemma window_start (k : nat) :
  startTime (window_cue words duration (4 * k)) = Qnat k * baseSegmentDuration.
Proof.
  unfold window_cue, wordsPerSegment. cbn [startTime id].
  rewrite (Nat.mul_comm 4 k), Nat.div_mul by discriminate. reflexivity.
Qed.

Lemma window_id (k : nat) :
  id (window_cue words duration (4 * k))
  = "subtitle-" ++ JS.toString (Z.of_nat k).
Proof.
  unfold window_cue, wordsPerSegment. cbn [startTime id].
  rewrite (Nat.mul_comm 4 k), Nat.div_mul by discriminate. reflexivity.
Qed.

Lemma window_in_time_mono (j k : nat) :
  (j <= k)%nat ->
  window_in_time words duration k -> window_in_time words duration j.
Proof.
  intros Hjk [Hw Ht]. split; [ lia | ].
  eapply Qle_lt_trans; [ | exact Ht ].
  apply Qmult_le_compat_r; [ apply Qnat_le; exact Hjk | discriminate ].
Qed.

(** The loop pushes the windows [k0], [k0 + 1], ... one after the other
    and stops at the first one that is not in time. *)
Lemma segment_loop_windows (fuel k0 : nat) :
  exists n,
    segment_loop fuel words duration (4 * k0) []
    = map (fun k => window_cue words duration (4 * k)) (seq k0 n)
    /\ (forall k, (k0 <= k < k0 + n)%nat -> window_in_time words duration k)
    /\ ((List.length words <= 4 * k0 + 4 * fuel)%nat ->
        ~ window_in_time words duration (k0 + n)).
Proof.
  revert k0. induction fuel as [| fuel IH]; intro k0; cbn [segment_loop].
  - exists 0%nat. split; [ reflexivity | ]. split; [ intros k Hk; lia | ].
    intros Hlen [Hw _]. lia.
  - destruct (Nat.ltb_spec (4 * k0) (List.length words)) as [Hw | Hw].
    + destruct (Qle_bool duration _) eqn:Hbreak.
      * exists 0%nat. split; [ reflexivity | ].
        split; [ intros k Hk; lia | ].
        intros _ [_ Ht]. rewrite Nat.add_0_r in Ht.
        apply Qle_bool_iff in Hbreak. rewrite window_start in Hbreak.
        apply (Qlt_not_le _ _ Ht Hbreak).
      * assert (Ht : Qnat k0 * baseSegmentDuration < duration).
        { apply Qnot_le_lt. intro Hle. rewrite <- window_start in Hle.
          apply Qle_bool_iff in Hle. congruence. }
        replace (4 * k0 + wordsPerSegment)%nat with (4 * S k0)%nat
          by (unfold wordsPerSegment; lia).
        rewrite segment_loop_acc.
        destruct (IH (S k0)) as (n & Hn & Hin & Hstop).
        exists (S n). rewrite Hn. split; [ reflexivity | ]. split.
        -- intros k Hk. destruct (Nat.eq_dec k k0) as [-> | Hne].
           ++ split; assumption.
           ++ apply Hin. lia.
        -- intro Hlen. replace (k0 + S n)%nat with (S k0 + n)%nat by lia.
           apply Hstop. lia.
    + exists 0%nat. split; [ reflexivity | ].
      split; [ intros k Hk; lia | ].
      intros _ [Hw' _]. lia.
Qed.

End Windows.

(** The cue list before the redistribution pass: the windows [0 .. N-1],
    where [N] is the first window that is not in time. *)
Lemma provisional_windows (text : string) (duration : Q) :
  exists N,
    provisional text duration
    = map (fun k => window_cue (words_of text) duration (4 * k)) (seq 0 N)
    /\ forall k, (k < N)%nat <-> window_in_time (words_of text) duration k.
Proof.
  unfold provisional.
  destruct (segment_loop_windows (words_of text) duration
              (List.length (words_of text)) 0) as (N & HN & Hin & Hstop).
  exists N. split; [ exact HN | ].
  intro k. split.
  - intro Hk. apply Hin. lia.
  - intro Hw. destruct (Nat.lt_ge_cases k N) as [Hlt | Hge]; [ exact Hlt | ].
    exfalso. apply Hstop; [ lia | ].
    apply (window_in_time_mono _ _ N k); assumption.
Qed.

Lemma segment_length_provisional (text : string) (duration : Q) :
  List.length (segment text duration)
  = List.length (provisional text duration).
Proof. apply redistribute_length. Qed.

Lemma redistribute_ids (duration : Q) (subs : list Subtitle) :
  map id (redistribute duration subs) = map id subs.
Proof.
  unfold redistribute. destruct (0 <? List.length subs)%nat;
    [ apply redistribute_from_ids | reflexivity ].
Qed.

Lemma redistribute_from_texts (index : nat) (tps duration : Q)
      (subs : list Subtitle) :
  map text (redistribute_from index tps duration subs) = map text subs.
Proof.
  revert index. induction subs as [| sub rest IH]; intro index; simpl;
    [ reflexivity | rewrite IH; reflexivity ].
Qed.

Lemma redistribute_texts (duration : Q) (subs : list Subtitle) :
  map text (redistribute duration subs) = map text subs.
Proof.
  unfold redistribute. destruct (0 <? List.length subs)%nat;
    [ apply redistribute_from_texts | reflexivity ].
Qed.

Lemma segment_count (transcript : string) (duration : Q) (k : nat) :
  (k < List.length (segment transcript duration))%nat
  <-> window_in_time (words_of transcript) duration k.
Proof.
  rewrite segment_length_provisional.
  destruct (provisional_windows transcript duration) as (N & HN & Hiff).
  rewrite HN, length_map, length_seq. apply Hiff.
Qed.

(** X2: cue [k] exists exactly when the transcript has a word [4 * k] and
    [k * 2.5] lies before the end of the audio; the windows after the
    first one that starts too late are dropped with their words. *)
Theorem X2_segment_count :
  forall (transcript : string) (totalDuration : Q) (k : nat),
    (k < List.length (segment transcript totalDuration))%nat
    <-> ((4 * k < List.length (words_of transcript))%nat
         /\ Qnat k * 2.5 < totalDuration).
Proof. intros transcript d k. apply segment_count. Qed.

Lemma X2_segment_count_witness :
  (1 < List.length (segment transcript8 10))%nat
  /\ ~ (2 < List.length (segment transcript8 10))%nat.
Proof.
  split.
  - apply (proj2 (X2_segment_count transcript8 10 1)).
    split; [ vm_compute; lia | reflexivity ].
  - intro H. apply (proj1 (X2_segment_count transcript8 10 2)) in H.
    destruct H as [H _]. vm_compute in H. lia.
Defined.

(* ================================================================== *)
(** ** Segmentation: identifiers and words of the cues *)
(* ================================================================== *)

Lemma toString_injective (a b : nat) :
  JS.toString (Z.of_nat a) = JS.toString (Z.of_nat b) -> a = b.
Proof.
  intro H.
  destruct (toString_nonneg (Z.of_nat a) (Nat2Z.is_nonneg a)) as (_ & _ & Ha).
  destruct (toString_nonneg (Z.of_nat b) (Nat2Z.is_nonneg b)) as (_ & _ & Hb).
  rewrite H in Ha. rewrite Ha in Hb. lia.
Qed.

Lemma NoDup_map_injective {A B} (f : A -> B) (l : list A) :
  (forall x y, f x = f y -> x = y) -> NoDup l -> NoDup (map f l).
Proof.
  intros Hinj Hl. induction Hl as [| x l Hx Hl IH]; simpl; constructor.
  - intro Hin. apply in_map_iff in Hin. destruct Hin as (y & Hy & Hin).
    apply Hinj in Hy. subst y. contradiction.
  - exact IH.
Qed.

Lemma segment_ids_list (text : string) (duration : Q) :
  map id (segment text duration)
  = map (fun k => "subtitle-" ++ JS.toString (Z.of_nat k))
        (seq 0 (List.length (segment text duration))).
Proof.
  rewrite segment_length_provisional. unfold segment.
  rewrite redistribute_ids.
  destruct (provisional_windows text duration) as (N & HN & _).
  rewrite HN, length_map, length_seq, map_map.
  apply map_ext. intro k. apply window_id.
Qed.

Lemma segment_ids_NoDup (transcript : string) (duration : Q) :
  NoDup (map id (segment transcript duration)).
Proof.
  rewrite segment_ids_list. apply NoDup_map_injective; [ | apply seq_NoDup ].
  intros x y H. apply toString_injective.
  cbn [append] in H. repeat (injection H as H). exact H.
Qed.

(** X1: cue [k] of the result has the id [subtitle-k], so the ids of a
    cue list made by segmentation are pairwise different. *)
Theorem X1_segment_ids_unique :
  forall (transcript : string) (totalDuration : Q),
    (forall k c, nth_error (segment transcript totalDuration) k = Some c ->
                 id c = "subtitle-" ++ JS.toString (Z.of_nat k))
    /\ NoDup (map id (segment transcript totalDuration)).
Proof.
  intros transcript d. split; [ | apply segment_ids_NoDup ].
  pose proof (segment_ids_list transcript d) as Hids.
  intros k c Hk.
  assert (Hlt : (k < List.length (segment transcript d))%nat)
    by (apply nth_error_Some; rewrite Hk; discriminate).
  apply (map_nth_error id) in Hk. rewrite Hids in Hk.
  rewrite nth_error_map, nth_error_seq in Hk.
  destruct (Nat.ltb_spec k (List.length (segment transcript d))); [ | lia ].
  cbn [option_map Nat.add] in Hk. injection Hk as <-. reflexivity.
Qed.

Lemma X1_segment_ids_unique_witness :
  exists c, nth_error (segment transcript8 10) 1 = Some c
            /\ id c = "subtitle-1".
Proof.
  destruct (nth_error (segment transcript8 10) 1) as [c |] eqn:Hc;
    [ | discriminate Hc ].
  exists c. split; [ reflexivity | ].
  apply (proj1 (X1_segment_ids_unique transcript8 10) 1%nat c Hc).
Defined.

(** Joining tokens with spaces and splitting again gives the tokens. *)
Lemma split_join (ws : list string) :
  ws <> [] ->
  Forall (fun w => count_char " " w = 0%nat) ws ->
  JS.split " " (JS.join " " ws) = ws.
Proof.
  induction ws as [| x rest IH]; intros Hne Hall; [ contradiction | ].
  inversion Hall as [| ? ? Hx Hrest]; subst.
  destruct rest as [| y rest'].
  - simpl. apply split_no_sep. exact Hx.
  - change (JS.join " " (x :: y :: rest'))
      with (x ++ String " " (JS.join " " (y :: rest'))).
    rewrite (split_app " " _ _ Hx), IH;
      [ reflexivity | discriminate | exact Hrest ].
Qed.

Lemma words_of_join (ws : list string) :
  Forall (fun w => count_char " " w = 0%nat /\ blank w = false) ws ->
  words_of (JS.join " " ws) = ws.
Proof.
  intro Hall. destruct ws as [| x rest]; [ reflexivity | ].
  rewrite words_of_filter, split_join.
  - apply forallb_filter_id. apply forallb_forall. intros w Hw.
    rewrite Forall_forall in Hall. destruct (Hall w Hw) as [_ ->]. reflexivity.
  - discriminate.
  - eapply Forall_impl; [ | exact Hall ]. intros w [H _]. exact H.
Qed.

Lemma Forall_firstn {A} (P : A -> Prop) (n : nat) (l : list A) :
  Forall P l -> Forall P (firstn n l).
Proof.
  intro H. revert n. induction H as [| x l Hx Hl IH]; intro n;
    destruct n; simpl; constructor; auto.
Qed.

Lemma Forall_skipn {A} (P : A -> Prop) (n : nat) (l : list A) :
  Forall P l -> Forall P (skipn n l).
Proof.
  intro H. revert n. induction H as [| x l Hx Hl IH]; intro n;
    destruct n; simpl; try constructor; auto.
Qed.

Lemma Forall_slice {A} (P : A -> Prop) (i j : nat) (l : list A) :
  Forall P l -> Forall P (JS.slice i j l).
Proof.
  intro H. unfold JS.slice. apply Forall_firstn, Forall_skipn. exact H.
Qed.

Lemma firstn_add {A} (a b : nat) (l : list A) :
  firstn (a + b) l = (firstn a l ++ firstn b (skipn a l))%list.
Proof.
  revert l. induction a as [| a IH]; intro l; [ reflexivity | ].
  destruct l as [| x l]; simpl.
  - rewrite firstn_nil. reflexivity.
  - rewrite IH. reflexivity.
Qed.

Lemma concat_windows {A} (l : list A) (N : nat) :
  List.concat (map (fun k => JS.slice (4 * k) (4 * k + wordsPerSegment) l)
                   (seq 0 N))
  = firstn (4 * N) l.
Proof.
  induction N as [| N IH]; [ reflexivity | ].
  rewrite seq_S, map_app, List.concat_app, IH.
  replace (4 * S N)%nat with (4 * N + 4)%nat by lia.
  rewrite firstn_add. f_equal.
  cbn [map List.concat Nat.add]. rewrite app_nil_r.
  unfold JS.slice, wordsPerSegment. f_equal. lia.
Qed.

(** X3: the words of the cues, read cue by cue, are the first [4 * N]
    tokens of the transcript in their order, [N] being the number of
    cues: no token is changed, repeated or moved, and only a tail of the
    transcript can be missing. *)
Theorem X3_segment_keeps_a_prefix_of_the_words :
  forall (transcript : string) (totalDuration : Q),
    List.concat (map (fun c => words_of (text c))
                (segment transcript totalDuration))
    = firstn (4 * List.length (segment transcript totalDuration))
             (words_of transcript).
Proof.
  intros txt d.
  rewrite <- (map_map text words_of).
  unfold segment at 1. rewrite redistribute_texts.
  rewrite segment_length_provisional.
  destruct (provisional_windows txt d) as (N & HN & _).
  rewrite HN, length_map, length_seq, !map_map.
  rewrite <- concat_windows. f_equal. apply map_ext. intro k.
  cbn [window_cue text]. apply words_of_join.
  apply Forall_slice. apply words_of_tokens.
Qed.

(* ================================================================== *)
(** ** Segmentation: more about the redistribution pass *)
(* ================================================================== *)

Lemma redistribute_from_again (index : nat) (tps tps' duration duration' : Q)
      (subs : list Subtitle) :
  redistribute_from index tps duration
                    (redistribute_from index tps' duration' subs)
  = redistribute_from index tps duration subs.
Proof.
  revert index. induction subs as [| sub rest IH]; intro index; simpl;
    [ reflexivity | rewrite IH; reflexivity ].
Qed.

(** X4: the redistribution pass is idempotent, and a second pass for
    another duration gives what a single pass for that duration gives:
    the bounds it writes depend only on the duration, the number of cues
    and the position of the cue. *)
Theorem X4_redistribute_idempotent :
  forall (totalDuration otherDuration : Q) (subs : list Subtitle),
    redistribute totalDuration (redistribute totalDuration subs)
    = redistribute totalDuration subs
    /\ redistribute totalDuration (redistribute otherDuration subs)
       = redistribute totalDuration subs.
Proof.
  assert (H : forall d d' subs,
             redistribute d (redistribute d' subs) = redistribute d subs).
  { intros d d' subs. unfold redistribute at 1.
    rewrite redistribute_length. unfold redistribute.
    destruct (0 <? List.length subs)%nat; [ | reflexivity ].
    apply redistribute_from_again. }
  intros d d' subs. split; apply H.
Qed.

Lemma Qnat_S (n : nat) : Qnat (S n) == Qnat n + 1.
Proof.
  unfold Qnat. rewrite Nat2Z.inj_succ. unfold Z.succ.
  rewrite inject_Z_plus. reflexivity.
Qed.

(** X5: when the redistribution pass leaves two or more cues, every cue
    is longer than 1.25 seconds: the last window started before the end
    of the audio, so the duration shared out exceeds 2.5 seconds times
    the number of cues but one. *)
Theorem X5_cues_are_longer_than_1_25_seconds :
  forall (transcript : string) (totalDuration : Q) (k : nat) (c : Subtitle),
    nth_error (segment transcript totalDuration) k = Some c ->
    (2 <= List.length (segment transcript totalDuration))%nat ->
    1.25 < endTime c - startTime c.
Proof.
  intros transcript d k c Hc.
  set (N := List.length (segment transcript d)).
  pose proof (segment_nth transcript d k c Hc) as H. fold N in H.
  destruct H as (Hd & Hk & Hs & He).
  assert (HN : (0 < N)%nat) by lia.
  assert (Hlen : endTime c - startTime c == d / Qnat N).
  { rewrite Hs, He. rewrite (clamped_end d N Hd HN) by lia.
    replace (k + 1)%nat with (S k) by lia. rewrite Qnat_S.
    unfold span. field. apply (Qnat_N_nonzero N HN). }
  intro H2. rewrite Hlen.
  assert (Hlast : window_in_time (words_of transcript) d (N - 1)).
  { apply segment_count. fold N. lia. }
  destruct Hlast as [_ Hlast].
  destruct N as [| n]; [ lia | ].
  replace (S n - 1)%nat with n in Hlast by lia.
  assert (Hn : 1 <= Qnat n) by (apply (Qnat_le 1 n); lia).
  apply Qlt_shift_div_l; [ apply (Qnat_lt 0 (S n)); lia | ].
  rewrite Qnat_S. unfold baseSegmentDuration in Hlast. lra.
Qed.

Lemma X5_cues_are_longer_than_1_25_seconds_witness :
  exists c, nth_error (segment transcript8 10) 1 = Some c
            /\ 1.25 < endTime c - startTime c.
Proof.
  destruct (nth_error (segment transcript8 10) 1) as [c |] eqn:Hc;
    [ | discriminate Hc ].
  exists c. split; [ reflexivity | ].
  apply (X5_cues_are_longer_than_1_25_seconds transcript8 10 1 c Hc).
  vm_compute. lia.
Defined.

(* ================================================================== *)
(** ** Lookup on the cue list of a segmentation, and the live display *)
(* ================================================================== *)

Lemma Forall_prefix {A} (P : A -> Prop) (pre post : list A) :
  (forall j x, (j < List.length pre)%nat ->
               nth_error (pre ++ post) j = Some x -> P x) ->
  Forall P pre.
Proof.
  intro H. apply Forall_forall. intros x Hx.
  apply In_nth_error in Hx. destruct Hx as [j Hj].
  assert (Hlt : (j < List.length pre)%nat)
    by (apply nth_error_Some; rewrite Hj; discriminate).
  apply (H j x Hlt). rewrite nth_error_app1 by exact Hlt. exact Hj.
Qed.

Lemma boundary_lookup (transcript : string) (totalDuration : Q) (k : nat)
      (a b : Subtitle) :
  nth_error (segment transcript totalDuration) k = Some a ->
  nth_error (segment transcript totalDuration) (S k) = Some b ->
  currentSub (startTime b) (segment transcript totalDuration) = Some a.
Proof.
  revert totalDuration. intros d Ha Hb.
  set (cues := segment transcript d) in *.
  pose proof (segment_nth transcript d _ _ Ha) as (Hd & Hk & Hsa & Hea).
  pose proof (segment_nth transcript d _ _ Hb) as (_ & HSk & Hsb & _).
  fold cues in Hk, Hsa, Hea, HSk, Hsb.
  set (N := List.length cues) in *.
  assert (HN : (0 < N)%nat) by lia.
  destruct (nth_error_split _ _ Ha) as (pre & post & Hsplit & Hlen).
  apply currentSub_some. exists pre, post. split; [ exact Hsplit | ].
  split.
  - apply (Forall_prefix _ pre (a :: post)). intros j x Hj Hx.
    rewrite <- Hsplit in Hx. fold cues in Hx.
    pose proof (segment_nth transcript d _ _ Hx) as (_ & _ & _ & Hex).
    fold cues in Hex. fold N in Hex.
    intros [_ Hact]. rewrite Hex, Hsb in Hact.
    rewrite (clamped_end d N Hd HN) in Hact by lia.
    apply (Qle_not_lt _ _ Hact).
    apply (span_lt d N Hd HN). lia.
  - split.
    + rewrite Hsa, Hsb. apply Qlt_le_weak. apply (span_lt d N Hd HN). lia.
    + rewrite Hea, Hsb. replace (k + 1)%nat with (S k) by lia.
      rewrite (clamped_end d N Hd HN) by lia. apply Qle_refl.
Qed.

(** X6: on the cue list of a segmentation, at the playback position where
    cue [k + 1] starts, the cue found is cue [k]: that position is also
    the end of cue [k], both bounds count, and the first match wins. *)
Theorem X6_boundary_belongs_to_the_earlier_cue :
  forall (transcript : string) (totalDuration : Q) (k : nat) (a b : Subtitle),
    nth_error (segment transcript totalDuration) k = Some a ->
    nth_error (segment transcript totalDuration) (S k) = Some b ->
    currentSub (startTime b) (segment transcript totalDuration) = Some a.
Proof. intros transcript d k a b. apply boundary_lookup. Qed.

Lemma X6_boundary_belongs_to_the_earlier_cue_witness :
  exists a b,
    nth_error (segment transcript8 10) 0 = Some a
    /\ nth_error (segment transcript8 10) 1 = Some b
    /\ currentSub (startTime b) (segment transcript8 10) = Some a.
Proof.
  destruct (nth_error (segment transcript8 10) 0) as [a |] eqn:Ha;
    [ | discriminate Ha ].
  destruct (nth_error (segment transcript8 10) 1) as [b |] eqn:Hb;
    [ | discriminate Hb ].
  exists a, b. split; [ reflexivity | ]. split; [ reflexivity | ].
  apply (X6_boundary_belongs_to_the_earlier_cue transcript8 10 0 a b Ha Hb).
Defined.

(** With pairwise different ids, the cue with the id of a cue of the list
    is that cue. *)
Lemma find_by_id (subs : list Subtitle) (c : Subtitle) :
  NoDup (map id subs) -> In c subs ->
  find (fun s => String.eqb (id s) (id c)) subs = Some c.
Proof.
  induction subs as [| x rest IH]; intros Hnd Hin; [ contradiction | ].
  simpl in Hnd. inversion Hnd as [| ? ? Hx Hrest]; subst.
  simpl. destruct (String.eqb_spec (id x) (id c)) as [Heq | Hne].
  - destruct Hin as [-> | Hin]; [ reflexivity | ].
    exfalso. apply Hx. rewrite Heq. apply in_map. exact Hin.
  - destruct Hin as [-> | Hin]; [ contradiction | ].
    apply IH; assumption.
Qed.

Lemma displayed_updateTime (st : Editor.State) (t : Q) :
  NoDup (map id (subtitles st)) ->
  Forall (fun c => id c <> EmptyString) (subtitles st) ->
  displayed (updateTime t st) = currentSub t (subtitles st).
Proof.
  intros Hnd Hne. unfold displayed, updateTime. simpl.
  destruct (currentSub t (subtitles st)) as [c |] eqn:Hc; simpl;
    [ | reflexivity ].
  assert (Hin : In c (subtitles st)).
  { unfold currentSub in Hc. apply find_some in Hc. apply Hc. }
  rewrite Forall_forall in Hne. specialize (Hne c Hin).
  destruct (String.eqb_spec (id c) EmptyString) as [He | _];
    [ contradiction | ].
  destruct (String.eqb_spec (id c) EmptyString) as [He | _];
    [ contradiction | ].
  apply find_by_id; assumption.
Qed.

(** X7: when the ids of the cue list are pairwise different and none is
    empty, the cue that the live display shows after a [timeupdate] at
    position [t] is the cue that the lookup found for [t], and nothing is
    shown when no cue covers [t]. *)
Theorem X7_display_shows_the_found_cue :
  forall (st : Editor.State) (t : Q),
    NoDup (map id (subtitles st)) ->
    Forall (fun c => id c <> EmptyString) (subtitles st) ->
    displayed (updateTime t st) = currentSub t (subtitles st).
Proof. intros st t. apply displayed_updateTime. Qed.

Lemma X7_display_shows_the_found_cue_witness :
  displayed (updateTime 3 (state_of [cue02; cue24] 4 None))
  = currentSub 3 [cue02; cue24].
Proof.
  apply (X7_display_shows_the_found_cue (state_of [cue02; cue24] 4 None) 3).
  - simpl. constructor; [ intros [H | []]; discriminate H | ].
    constructor; [ intros [] | constructor ].
  - simpl. repeat constructor; discriminate.
Defined.

(* ================================================================== *)
(** ** Edit store: timing *)
(* ================================================================== *)

Section EditTiming.

Variables (i : string) (newStart newEnd : Q).

Lemma updateSubtitleTiming_length (prev : list Subtitle) :
  List.length (updateSubtitleTiming i newStart newEnd prev) = List.length prev.
Proof. unfold updateSubtitleTiming. apply length_map. Qed.

Lemma updateSubtitleTiming_nth (prev : list Subtitle) (k : nat) :
  nth_error (updateSubtitleTiming i newStart newEnd prev) k
  = option_map
      (fun sub => if String.eqb (id sub) i
                  then mkSubtitle (id sub) newStart newEnd (text sub)
                  else sub)
      (nth_error prev k).
Proof. unfold updateSubtitleTiming. apply nth_error_map. Qed.

Lemma updateSubtitleTiming_no_match (prev : list Subtitle) :
  (forall sub, In sub prev -> id sub <> i) ->
  updateSubtitleTiming i newStart newEnd prev = prev.
Proof.
  induction prev as [| sub rest IH]; intro Hno; [ reflexivity | ].
  simpl. destruct (String.eqb_spec (id sub) i) as [Heq | _].
  - exfalso. apply (Hno sub); [ left; reflexivity | exact Heq ].
  - f_equal. apply IH. intros x Hx. apply Hno. right. exact Hx.
Qed.

End EditTiming.

(** X8: [updateSubtitleTiming] keeps the length, the order, the ids and
    the texts of the list; a cue whose id matches gets exactly the two
    given bounds, unchecked; every other cue is unchanged; and when no
    cue has the id the list is unchanged. *)
Theorem X8_updateSubtitleTiming_frame :
  forall (prev : list Subtitle) (i : string) (newStart newEnd : Q),
    List.length (updateSubtitleTiming i newStart newEnd prev)
    = List.length prev
    /\ map id (updateSubtitleTiming i newStart newEnd prev) = map id prev
    /\ map text (updateSubtitleTiming i newStart newEnd prev) = map text prev
    /\ (forall k sub, nth_error prev k = Some sub ->
          exists sub',
            nth_error (updateSubtitleTiming i newStart newEnd prev) k
            = Some sub'
            /\ (id sub = i ->
                startTime sub' = newStart /\ endTime sub' = newEnd)
            /\ (id sub <> i -> sub' = sub))
    /\ ((forall sub, In sub prev -> id sub <> i) ->
          updateSubtitleTiming i newStart newEnd prev = prev).
Proof.
  intros prev i newStart newEnd.
  split; [ apply updateSubtitleTiming_length | ].
  split; [ apply updateSubtitleTiming_ids | ].
  split.
  { unfold updateSubtitleTiming. rewrite map_map. apply map_ext.
    intro sub. destruct (String.eqb (id sub) i); reflexivity. }
  split; [ | apply updateSubtitleTiming_no_match ].
  intros k sub Hk. rewrite updateSubtitleTiming_nth, Hk. simpl.
  destruct (String.eqb_spec (id sub) i) as [Heq | Hne].
  - eexists. split; [ reflexivity | ]. simpl.
    split; [ intros _; split; reflexivity | intro Hc; contradiction ].
  - exists sub. split; [ reflexivity | ].
    split; [ intro Hc; contradiction | reflexivity ].
Qed.

Lemma X8_updateSubtitleTiming_frame_witness :
  exists sub',
    nth_error (updateSubtitleTiming "subtitle-1" 3 1 [cue02; cue24]) 1
    = Some sub'
    /\ startTime sub' = 3 /\ endTime sub' = 1.
Proof.
  destruct (X8_updateSubtitleTiming_frame [cue02; cue24] "subtitle-1" 3 1)
    as (_ & _ & _ & Hnth & _).
  destruct (Hnth 1%nat cue24 eq_refl) as (sub' & H1 & H2 & _).
  exists sub'. split; [ exact H1 | ]. apply H2. reflexivity.
Defined.

(* ================================================================== *)
(** ** The four nudge buttons *)
(* ================================================================== *)






(** After a click on the edited cue [c], a cue with the id of [c] has the
    bounds that the button computed. *)
Lemma click_bounds (a b : Q) (st : Editor.State) (c c' : Subtitle) :
  In c' (subtitles
           (setSubtitles (updateSubtitleTiming (id c) a b (subtitles st))
                         st)) ->
  id c' = id c -> startTime c' = a /\ endTime c' = b.
Proof. simpl. apply updateSubtitleTiming_In. Qed.





(* ================================================================== *)
(** ** The two time fields of the edit panel *)
(* ================================================================== *)

Lemma Qlt_bool_iff (a b : Q) : Qlt_bool a b = true <-> a < b.
Proof.
  unfold Qlt_bool. rewrite negb_true_iff. split.
  - intro H. apply Qnot_le_lt. intro Hle. apply Qle_bool_iff in Hle.
    congruence.
  - intro H. destruct (Qle_bool b a) eqn:Hle; [ | reflexivity ].
    apply Qle_bool_iff in Hle. exfalso. apply (Qlt_not_le _ _ H Hle).
Qed.

Lemma start_guard (x e : Q) :
  Qle_bool 0 x && Qlt_bool x e = true <-> 0 <= x /\ x < e.
Proof. rewrite andb_true_iff, Qle_bool_iff, Qlt_bool_iff. reflexivity. Qed.

Lemma end_guard (s x d : Q) :
  Qlt_bool s x && Qle_bool x d = true <-> s < x /\ x <= d.
Proof. rewrite andb_true_iff, Qle_bool_iff, Qlt_bool_iff. reflexivity. Qed.

(** X11: a text typed into the start field is applied exactly when it
    parses to a time [x] with [0 <= x < end] of the edited cue: then every
    cue with its id starts at [x] and keeps its end, otherwise nothing
    changes.  A text without exactly one colon parses to 0, so it moves
    the start to 0 whenever the cue ends after 0. *)
Theorem X11_start_field :
  forall (value : string) (st : Editor.State) (c : Subtitle),
    edited st = Some c ->
    (0 <= parseTime value -> parseTime value < endTime c ->
     forall c', In c' (subtitles (changeStartTime value st)) ->
                id c' = id c ->
                startTime c' = parseTime value /\ endTime c' = endTime c)
    /\ (~ (0 <= parseTime value /\ parseTime value < endTime c) ->
        changeStartTime value st = st)
    /\ (count_char ":" value <> 1%nat -> 0 < endTime c ->
        forall c', In c' (subtitles (changeStartTime value st)) ->
                   id c' = id c -> startTime c' = 0).
Proof.
  intros value st c He.
  assert (Happly : 0 <= parseTime value -> parseTime value < endTime c ->
                   forall c', In c' (subtitles (changeStartTime value st)) ->
                              id c' = id c ->
                              startTime c' = parseTime value
                              /\ endTime c' = endTime c).
  { intros H0 H1 c' Hin Hid. unfold changeStartTime in Hin. rewrite He in Hin.
    rewrite (proj2 (start_guard _ _) (conj H0 H1)) in Hin.
    apply (click_bounds _ _ st c c' Hin Hid). }
  split; [ exact Happly | ]. split.
  - intro Hno. unfold changeStartTime. rewrite He.
    destruct (Qle_bool 0 (parseTime value)
              && Qlt_bool (parseTime value) (endTime c)) eqn:Hg;
      [ | reflexivity ].
    apply start_guard in Hg. contradiction.
  - intros Hcolon Hend c' Hin Hid.
    pose proof (parseTime_not_two_parts value Hcolon) as Hz.
    destruct (Happly ltac:(rewrite Hz; apply Qle_refl)
                     ltac:(rewrite Hz; exact Hend) c' Hin Hid) as [Hs _].
    rewrite Hs. exact Hz.
Qed.

Lemma X11_start_field_witness :
  changeStartTime "00:03.000" (state_of [cue02; cue24] 4 (Some "subtitle-0"))
  = state_of [cue02; cue24] 4 (Some "subtitle-0").
Proof.
  refine (proj1 (proj2 (X11_start_field "00:03.000"
            (state_of [cue02; cue24] 4 (Some "subtitle-0")) cue02 eq_refl)) _).
  intros [_ H]. vm_compute in H. discriminate H.
Defined.

(** X12: a text typed into the end field is applied exactly when it
    parses to a time [x] with [start < x <= duration]: then every cue with
    the id of the edited cue ends at [x] and keeps its start, otherwise
    nothing changes.  A text without exactly one colon parses to 0 and is
    therefore ignored for a cue that does not start before 0. *)
Theorem X12_end_field :
  forall (value : string) (st : Editor.State) (c : Subtitle),
    edited st = Some c ->
    (startTime c < parseTime value -> parseTime value <= duration st ->
     forall c', In c' (subtitles (changeEndTime value st)) ->
                id c' = id c ->
                startTime c' = startTime c /\ endTime c' = parseTime value)
    /\ (~ (startTime c < parseTime value /\ parseTime value <= duration st) ->
        changeEndTime value st = st)
    /\ (count_char ":" value <> 1%nat -> 0 <= startTime c ->
        changeEndTime value st = st).
Proof.
  intros value st c He.
  assert (Hkeep : ~ (startTime c < parseTime value
                     /\ parseTime value <= duration st) ->
                  changeEndTime value st = st).
  { intro Hno. unfold changeEndTime. rewrite He.
    destruct (Qlt_bool (startTime c) (parseTime value)
              && Qle_bool (parseTime value) (duration st)) eqn:Hg;
      [ | reflexivity ].
    apply end_guard in Hg. contradiction. }
  split; [ | split; [ exact Hkeep | ] ].
  - intros H0 H1 c' Hin Hid. unfold changeEndTime in Hin. rewrite He in Hin.
    rewrite (proj2 (end_guard _ _ _) (conj H0 H1)) in Hin.
    apply (click_bounds _ _ st c c' Hin Hid).
  - intros Hcolon Hstart. apply Hkeep. intros [Hlt _].
    rewrite (parseTime_not_two_parts value Hcolon) in Hlt.
    apply (Qlt_not_le _ _ Hlt Hstart).
Qed.

Lemma X12_end_field_witness :
  changeEndTime "soon" (state_of [cue02; cue24] 4 (Some "subtitle-1"))
  = state_of [cue02; cue24] 4 (Some "subtitle-1").
Proof.
  refine (proj2 (proj2 (X12_end_field "soon"
            (state_of [cue02; cue24] 4 (Some "subtitle-1")) cue24 eq_refl))
            _ _).
  - vm_compute. discriminate.
  - vm_compute. discriminate.
Defined.

(* ================================================================== *)
(** ** The time format for every non-negative time *)
(* ================================================================== *)

Lemma Qfloor_unique (q : Q) (z : Z) :
  inject_Z z <= q -> q < inject_Z z + 1 -> Qfloor q = z.
Proof.
  intros Hlo Hhi.
  pose proof (Qfloor_le q) as Flo. pose proof (Qlt_floor q) as Fhi.
  rewrite inject_Z_plus in Fhi. change (inject_Z 1) with 1 in Fhi.
  assert (H1 : inject_Z (Qfloor q) < inject_Z (z + 1)).
  { rewrite inject_Z_plus. change (inject_Z 1) with 1. lra. }
  assert (H2 : inject_Z z < inject_Z (Qfloor q + 1)).
  { rewrite inject_Z_plus. change (inject_Z 1) with 1. lra. }
  rewrite <- Zlt_Qlt in H1, H2. lia.
Qed.

Section AnyTime.

Variable t : Q.
Hypothesis t_nonneg : 0 <= t.

(** Without an upper bound on [t] the minutes are not bounded, the other
    two fields are. *)
Lemma fields_nonneg :
  (0 <= minutes_field t)%Z
  /\ (0 <= seconds_field t < 60)%Z
  /\ (0 <= milliseconds_field t < 1000)%Z.
Proof.
  destruct (mins_bounds t) as [Mlo Mhi].
  destruct (secs_bounds t t_nonneg) as [Slo Shi].
  destruct (ms_bounds t t_nonneg) as [Llo Lhi].
  pose proof (Qfloor_le t) as Flo. pose proof (Qlt_floor t) as Fhi.
  rewrite inject_Z_plus in Fhi. change (inject_Z 1) with 1 in Fhi.
  set (m := minutes_field t) in *. set (sc := seconds_field t) in *.
  set (l := milliseconds_field t) in *.
  assert (Hm : -1 < inject_Z m) by lra.
  assert (Hs : -1 < inject_Z sc /\ inject_Z sc < 60) by (split; lra).
  assert (Hl : -1 < inject_Z l /\ inject_Z l < 1000).
  { assert (Hx : inject_Z l == inject_Z l / 1000 * 1000) by field.
    revert Llo Lhi. rewrite Hx at 3 4.
    generalize (inject_Z l / 1000). intros x Llo Lhi. split; lra. }
  change (-1) with (inject_Z (-1)) in Hm, Hs, Hl.
  change 60 with (inject_Z 60) in Hs.
  change 1000 with (inject_Z 1000) in Hl.
  destruct Hs as [Hs1 Hs2]. destruct Hl as [Hl1 Hl2].
  rewrite <- Zlt_Qlt in Hm, Hs1, Hs2, Hl1, Hl2. lia.
Qed.

End AnyTime.

(** The fields of a whole number of seconds. *)
Lemma whole_seconds_fields (n : Z) :
  (0 <= n)%Z ->
  minutes_field (inject_Z n) = (n / 60)%Z
  /\ seconds_field (inject_Z n) = (n mod 60)%Z
  /\ milliseconds_field (inject_Z n) = 0%Z.
Proof.
  intro Hn.
  assert (Ht : 0 <= inject_Z n)
    by (change 0 with (inject_Z 0); rewrite <- Zle_Qle; exact Hn).
  pose proof (Z.div_mod n 60 ltac:(lia)) as Hdm.
  pose proof (Z.mod_pos_bound n 60 ltac:(lia)) as Hmod.
  assert (Hq : inject_Z n
               == inject_Z (n / 60) * 60 + inject_Z (n mod 60)).
  { rewrite Hdm at 1. rewrite inject_Z_plus, inject_Z_mult.
    change (inject_Z 60) with 60. ring. }
  assert (Hr : 0 <= inject_Z (n mod 60) /\ inject_Z (n mod 60) < 60).
  { change 0 with (inject_Z 0). change 60 with (inject_Z 60).
    rewrite <- Zle_Qle, <- Zlt_Qlt. exact Hmod. }
  assert (Hmin : minutes_field (inject_Z n) = (n / 60)%Z).
  { unfold minutes_field. apply Qfloor_unique.
    - apply Qle_shift_div_l; [ reflexivity | ]. lra.
    - apply Qlt_shift_div_r; [ reflexivity | ]. lra. }
  assert (Hfl : Qfloor (inject_Z n) = n) by apply Qfloor_Z.
  assert (Hsec : seconds_field (inject_Z n) = (n mod 60)%Z).
  { pose proof (floor_is_mins_secs (inject_Z n) Ht) as H.
    rewrite Hfl, Hmin in H. lia. }
  split; [ exact Hmin | ]. split; [ exact Hsec | ].
  unfold milliseconds_field. apply Qfloor_unique;
    rewrite (rem_1 (inject_Z n) Ht), Hfl; change (inject_Z 0) with 0;
    generalize (inject_Z n); intro x; lra.
Qed.

(** X14: a whole number of seconds that a double holds exactly (below
    2^53) is printed with its minutes, its seconds and [000] as
    milliseconds, and [parseTime] gives back exactly that number. *)
Theorem X14_whole_seconds_round_trip :
  forall n : Z,
    (0 <= n < 2 ^ 53)%Z ->
    formatTime (inject_Z n) = render (n / 60) (n mod 60) 0
    /\ parseTime (formatTime (inject_Z n)) == inject_Z n.
Proof.
  intros n [Hn _].
  destruct (whole_seconds_fields n Hn) as (Hm & Hs & Hl).
  assert (Hf : formatTime (inject_Z n) = render (n / 60) (n mod 60) 0).
  { change (formatTime (inject_Z n))
      with (render (minutes_field (inject_Z n)) (seconds_field (inject_Z n))
                   (milliseconds_field (inject_Z n))).
    rewrite Hm, Hs, Hl. reflexivity. }
  split; [ exact Hf | ].
  rewrite Hf.
  pose proof (Z.mod_pos_bound n 60 ltac:(lia)) as Hmod.
  rewrite parseTime_render by (try lia; apply Z.div_pos; lia).
  pose proof (Z.div_mod n 60 ltac:(lia)) as Hdm.
  rewrite Hdm at 3. rewrite inject_Z_plus, inject_Z_mult.
  change (inject_Z 60) with 60. change (inject_Z 0) with 0. field.
Qed.

Lemma X14_whole_seconds_round_trip_witness :
  formatTime 3725 = "62:05.000" /\ parseTime (formatTime 3725) == 3725.
Proof.
  assert (H : (0 <= 3725 < 2 ^ 53)%Z) by (split; [ lia | reflexivity ]).
  split; [ reflexivity | ].
  exact (proj2 (X14_whole_seconds_round_trip 3725 H)).
Defined.

Lemma repeat_char_length (n : nat) (c : ascii) :
  String.length (JS.repeat_char n c) = n.
Proof.
  induction n as [| n IH]; simpl; [ reflexivity | rewrite IH; reflexivity ].
Qed.

Lemma append_length (a b : string) :
  String.length (a ++ b) = (String.length a + String.length b)%nat.
Proof.
  induction a as [| c a IH]; simpl; [ reflexivity | rewrite IH; reflexivity ].
Qed.

Lemma padStart_length (n : nat) (c : ascii) (s : string) :
  String.length (JS.padStart n c s) = Nat.max n (String.length s).
Proof.
  unfold JS.padStart. rewrite append_length, repeat_char_length. lia.
Qed.

Lemma seconds_are_two_digits : padded_width 2 60 = true.
Proof. vm_compute. reflexivity. Qed.

Lemma milliseconds_are_three_digits : padded_width 3 1000 = true.
Proof. vm_compute. reflexivity. Qed.

Lemma padded_width_spec (width bound : nat) (z : Z) :
  padded_width width bound = true ->
  (0 <= z)%Z /\ (Z.to_nat z < bound)%nat ->
  String.length (JS.padStart width "0" (JS.toString z)) = width.
Proof.
  unfold padded_width. rewrite forallb_forall. intros Hall Hz.
  specialize (Hall (Z.to_nat z)). rewrite Z2Nat.id in Hall by lia.
  apply Nat.eqb_eq. apply Hall. apply in_seq. lia.
Qed.

(** The text of a rendered time has the minutes before the only colon
    and the seconds and milliseconds around the only dot after it. *)
Lemma render_parts (mins secs ms : Z) :
  (0 <= mins)%Z -> (0 <= secs)%Z -> (0 <= ms)%Z ->
  JS.split ":" (render mins secs ms)
  = [ JS.padStart 2 "0" (JS.toString mins);
      JS.padStart 2 "0" (JS.toString secs) ++ "."
      ++ JS.padStart 3 "0" (JS.toString ms) ]
  /\ JS.split "." (JS.padStart 2 "0" (JS.toString secs) ++ "."
                   ++ JS.padStart 3 "0" (JS.toString ms))
     = [ JS.padStart 2 "0" (JS.toString secs);
         JS.padStart 3 "0" (JS.toString ms) ].
Proof.
  intros Hm Hs Hms. unfold render.
  pose proof (padStart_all_digits 2 mins Hm) as Dm.
  pose proof (padStart_all_digits 2 secs Hs) as Ds.
  pose proof (padStart_all_digits 3 ms Hms) as Dms.
  set (A := JS.padStart 2 "0" (JS.toString mins)) in *.
  set (B := JS.padStart 2 "0" (JS.toString secs)) in *.
  set (C := JS.padStart 3 "0" (JS.toString ms)) in *.
  split.
  - simpl append. rewrite (split_app ":" A), (split_no_sep ":");
      [ reflexivity | | apply all_digits_no_char; [ reflexivity | assumption ] ].
    rewrite count_char_app. simpl.
    rewrite !(all_digits_no_char ":") by (try reflexivity; assumption).
    reflexivity.
  - simpl append. rewrite (split_app "." B), (split_no_sep "." C);
      try (apply all_digits_no_char; [ reflexivity | assumption ]).
    reflexivity.
Qed.

(** X13: for every [t] with [0 <= t < 1e21] (below the magnitude from
    which a number is printed with an exponent), [formatTime t] has the
    [MM:SS.mmm] shape: digits only around one colon and one dot, two or
    more digits of minutes (the minutes are not carried into hours),
    exactly two of seconds and exactly three of milliseconds. *)
Theorem X13_formatTime_shape :
  forall t : Q,
    0 <= t -> t < inject_Z (10 ^ 21) ->
    Spec.is_MM_SS_mmm (formatTime t) = true.
Proof.
  intros t Ht _. destruct (fields_nonneg t Ht) as (Hm & Hs & Hl).
  change (formatTime t)
    with (render (minutes_field t) (seconds_field t) (milliseconds_field t)).
  unfold Spec.is_MM_SS_mmm.
  destruct (render_parts (minutes_field t) (seconds_field t)
                         (milliseconds_field t)) as [-> ->]; try lia.
  rewrite !padStart_all_digits by lia.
  rewrite (padded_width_spec 2 60 (seconds_field t) seconds_are_two_digits)
    by lia.
  rewrite (padded_width_spec 3 1000 (milliseconds_field t)
                             milliseconds_are_three_digits) by lia.
  rewrite padStart_length.
  destruct (Nat.leb_spec 2 (Nat.max 2 (String.length
                             (JS.toString (minutes_field t)))));
    [ reflexivity | lia ].
Qed.

Lemma X13_formatTime_shape_witness :
  Spec.is_MM_SS_mmm (formatTime 7325.5) = true
  /\ formatTime 7325.5 = "122:05.500".
Proof.
  split; [ | reflexivity ].
  apply (X13_formatTime_shape 7325.5).
  - vm_compute. discriminate.
  - reflexivity.
Defined.


(* ================================================================== *)
(** ** Playback controls *)
(* ================================================================== *)

Lemma seekTo_mounted (time : Q) (p : Player) :
  audioMounted p = true ->
  seekTo time p = setEditor (setCurrentTime time (editor p)) p.
Proof. intro H. unfold seekTo. rewrite H. reflexivity. Qed.

Lemma seekTo_unmounted (time : Q) (p : Player) :
  audioMounted p = false -> seekTo time p = p.
Proof. intro H. unfold seekTo. rewrite H. reflexivity. Qed.

(** X15: with the audio element present, "skip back" never leaves a
    position below 0 and "skip forward" never one above the duration; a
    position inside [0, duration] stays inside, a skip back never moving
    it forward and a skip forward never moving it back; the cue list and
    the id of the active cue are not touched.  Without the audio element
    both do nothing. *)
Theorem X15_skips_stay_inside_the_audio :
  forall p : Player,
    (audioMounted p = false -> skipBackward p = p /\ skipForward p = p)
    /\ (audioMounted p = true ->
        let back := editor (skipBackward p) in
        let forth := editor (skipForward p) in
        0 <= currentTime back
        /\ currentTime forth <= duration (editor p)
        /\ (0 <= currentTime (editor p) <= duration (editor p) ->
            currentTime back <= currentTime (editor p)
            /\ currentTime (editor p) <= currentTime forth)
        /\ subtitles back = subtitles (editor p)
        /\ subtitles forth = subtitles (editor p)
        /\ currentSubtitleId back = currentSubtitleId (editor p)
        /\ currentSubtitleId forth = currentSubtitleId (editor p)).
Proof.
  intro p. split.
  - intro H. unfold skipBackward, skipForward.
    rewrite !seekTo_unmounted by exact H. split; reflexivity.
  - intro H.
    assert (Hb : skipBackward p
                 = setEditor (setCurrentTime
                                (Qmax 0 (currentTime (editor p) - 10))
                                (editor p)) p)
      by (apply seekTo_mounted; exact H).
    assert (Hf : skipForward p
                 = setEditor (setCurrentTime
                                (Qmin (duration (editor p))
                                      (currentTime (editor p) + 10))
                                (editor p)) p)
      by (apply seekTo_mounted; exact H).
    rewrite Hb, Hf. cbn.
    split; [ apply Q.le_max_l | ]. split; [ apply Q.le_min_l | ].
    split.
    { intros [H0 H1]. split.
      - apply Q.max_lub; lra.
      - apply Q.min_glb; lra. }
    repeat split.
Qed.

Lemma X15_skips_stay_inside_the_audio_witness :
  currentTime (editor (skipForward
     (player_of (mkFile "talk.mp3" "audio/mpeg")
                (setCurrentTime 3 (state_of [cue02; cue24] 4 None)))))
  <= 4.
Proof.
  refine (proj1 (proj2 (proj2 (X15_skips_stay_inside_the_audio
     (player_of (mkFile "talk.mp3" "audio/mpeg")
                (setCurrentTime 3 (state_of [cue02; cue24] 4 None)))) _))).
  reflexivity.
Defined.

(* ================================================================== *)
(** ** Upload *)
(* ================================================================== *)

(** X16: a file whose media type does not start with [audio/] changes
    nothing when dropped and only raises the alert when chosen in the
    file dialog.  A file that does is taken the same way by both
    handlers: it becomes the audio file, the cue list is emptied and the
    selection cleared, so that an export right after it does nothing;
    the duration, the position and the id of the active cue of the
    previous file stay in the state. *)
Theorem X16_upload :
  forall (file : File) (url : string) (p : Player),
    (startsWith "audio/" (type file) = false ->
     handleDrop (Some file) url p = p
     /\ handleFileUpload (Some file) url p
        = setEditor (alert "Please select an audio file" (editor p)) p)
    /\ (startsWith "audio/" (type file) = true ->
        let p' := handleFileUpload (Some file) url p in
        handleDrop (Some file) url p = p'
        /\ audioFile p' = Some file /\ audioUrl p' = url
        /\ subtitles (editor p') = []
        /\ selectedSubtitle (editor p') = None
        /\ exportSRT p' = None
        /\ duration (editor p') = duration (editor p)
        /\ currentTime (editor p') = currentTime (editor p)
        /\ currentSubtitleId (editor p') = currentSubtitleId (editor p)).
Proof.
  intros file url p. unfold handleDrop, handleFileUpload. split; intro H;
    rewrite H; simpl; repeat split.
Qed.

Lemma X16_upload_witness :
  handleDrop (Some (mkFile "notes.txt" "text/plain")) "blob:2"
             (player_of (mkFile "talk.mp3" "audio/mpeg")
                        (state_of [cue02; cue24] 4 None))
  = player_of (mkFile "talk.mp3" "audio/mpeg")
              (state_of [cue02; cue24] 4 None)
  /\ subtitles (editor (handleFileUpload
                  (Some (mkFile "next.wav" "audio/wav")) "blob:2"
                  (player_of (mkFile "talk.mp3" "audio/mpeg")
                             (state_of [cue02; cue24] 4 None)))) = [].
Proof.
  split.
  - refine (proj1 (proj1 (X16_upload (mkFile "notes.txt" "text/plain")
                            "blob:2" _) _)).
    reflexivity.
  - refine (proj1 (proj2 (proj2 (proj2 (proj2
              (X16_upload (mkFile "next.wav" "audio/wav") "blob:2" _) _))))).
    reflexivity.
Defined.

(* ================================================================== *)
(** ** Export *)
(* ================================================================== *)

Lemma append_assoc (a b c : string) : (a ++ b) ++ c = a ++ (b ++ c).
Proof.
  induction a as [| x a IH]; simpl; [ reflexivity | rewrite IH; reflexivity ].
Qed.

Lemma srt_from_app (index : nat) (a b : list Subtitle) :
  srt_from index (a ++ b)
  = srt_from index a ++ srt_from (index + List.length a) b.
Proof.
  revert index. induction a as [| c a IH]; intro index; simpl.
  - rewrite Nat.add_0_r. reflexivity.
  - rewrite IH. rewrite !append_assoc.
    replace (S index + List.length a)%nat
      with (index + S (List.length a))%nat by lia.
    reflexivity.
Qed.

(** X17: the exported text is the blocks of the cues in list order, the
    cue at position [k] under the number [k + 1]: whatever stands before
    and after a cue, its block is the number, the two formatted bounds and
    the text as it is (an empty text included), and the text of a longer
    list starts with the text of each of its prefixes. *)
Theorem X17_export_blocks :
  forall (before after : list Subtitle) (c : Subtitle),
    srtContent (before ++ c :: after)
    = srtContent before
      ++ srt_block (List.length before + 1) c
      ++ srt_from (List.length before + 1) after.
Proof.
  intros before after c. unfold srtContent.
  rewrite srt_from_app. cbn [srt_from Nat.add]. unfold srt_block.
  rewrite !append_assoc.
  replace (S (List.length before)) with (List.length before + 1)%nat by lia.
  reflexivity.
Qed.

Lemma all_extension_chars_no_dot (s : string) :
  all_extension_chars s = true -> count_char "." s = 0%nat.
Proof.
  induction s as [| c s IH]; simpl; [ reflexivity | ].
  unfold extension_char. intro H.
  apply andb_true_iff in H. destruct H as [Hc Hs].
  apply andb_true_iff in Hc. destruct Hc as [_ Hdot].
  apply negb_true_iff in Hdot. rewrite Hdot. simpl. apply IH. exact Hs.
Qed.

Lemma all_extension_chars_app_dot (a b : string) :
  all_extension_chars (a ++ String "." b) = false.
Proof.
  induction a as [| c a IH]; simpl.
  - reflexivity.
  - rewrite IH. apply andb_false_r.
Qed.

Lemma stripExtension_no_dot (s : string) :
  count_char "." s = 0%nat -> stripExtension s = s.
Proof.
  induction s as [| c s IH]; simpl; [ reflexivity | ].
  destruct (Ascii.eqb c "."); simpl; [ discriminate | ].
  intro H. rewrite (IH H). reflexivity.
Qed.

Lemma stripExtension_last (stem ext : string) :
  ext <> EmptyString -> all_extension_chars ext = true ->
  stripExtension (stem ++ String "." ext) = stem.
Proof.
  intros Hne Hext. induction stem as [| c stem IH]; simpl.
  - rewrite Hext. destruct ext; [ contradiction | reflexivity ].
  - rewrite IH. rewrite all_extension_chars_app_dot.
    rewrite andb_false_r. reflexivity.
Qed.

(** X18: the name of the download is the name of the audio file without
    its last extension, followed by [.srt]: a name [stem.ext], where [ext]
    is not empty and has neither a dot nor a slash, gives [stem.srt],
    whatever [stem] contains, and a name without a dot gives [name.srt];
    when that leaves nothing, or without a file, the name is
    [subtitles.srt]. *)
Theorem X18_download_name :
  forall (stem ext mediaType : string),
    (ext <> EmptyString -> all_extension_chars ext = true ->
     stem <> EmptyString ->
     downloadName (Some (mkFile (stem ++ String "." ext) mediaType))
     = stem ++ ".srt")
    /\ (ext <> EmptyString -> all_extension_chars ext = true ->
        downloadName (Some (mkFile (String "." ext) mediaType))
        = "subtitles.srt")
    /\ (count_char "." stem = 0%nat -> stem <> EmptyString ->
        downloadName (Some (mkFile stem mediaType)) = stem ++ ".srt")
    /\ downloadName None = "subtitles.srt".
Proof.
  intros stem ext mediaType. unfold downloadName. cbn [name].
  split; [ | split; [ | split; [ | reflexivity ] ] ].
  - intros Hne Hext Hstem. rewrite (stripExtension_last stem ext Hne Hext).
    destruct (String.eqb_spec stem EmptyString);
      [ contradiction | reflexivity ].
  - intros Hne Hext.
    change (String "."%char ext) with (EmptyString ++ String "." ext).
    rewrite (stripExtension_last EmptyString ext Hne Hext). reflexivity.
  - intros Hdot Hstem. rewrite (stripExtension_no_dot stem Hdot).
    destruct (String.eqb_spec stem EmptyString);
      [ contradiction | reflexivity ].
Qed.

Lemma X18_download_name_witness :
  downloadName (Some (mkFile "my.talk.v2.mp3" "audio/mpeg"))
  = "my.talk.v2.srt".
Proof.
  refine (proj1 (X18_download_name "my.talk.v2" "mp3" "audio/mpeg") _ _ _);
    [ discriminate | reflexivity | discriminate ].
Defined.

(* ================================================================== *)
(** ** The progress bar of the active cue *)
(* ================================================================== *)

Section ProgressBar.

Variable sub : Subtitle.
Hypothesis proper : startTime sub < endTime sub.

Lemma fraction_le (t u : Q) :
  t <= u ->
  (t - startTime sub) / (endTime sub - startTime sub) * 100
  <= (u - startTime sub) / (endTime sub - startTime sub) * 100.
Proof.
  intro H. apply Qmult_le_compat_r; [ | discriminate ].
  unfold Qdiv. apply Qmult_le_compat_r; [ lra | ].
  apply Qlt_le_weak. apply Qinv_lt_0_compat. lra.
Qed.

Lemma fraction_at_start :
  (startTime sub - startTime sub) / (endTime sub - startTime sub) * 100 == 0.
Proof. field. lra. Qed.

Lemma fraction_at_end :
  (endTime sub - startTime sub) / (endTime sub - startTime sub) * 100 == 100.
Proof. field. lra. Qed.

Lemma progress_monotone (t u : Q) :
  t <= u -> progress t sub <= progress u sub.
Proof.
  intro H. unfold progress.
  apply Q.min_le_compat_l. apply Q.max_le_compat_l. apply fraction_le.
  exact H.
Qed.

End ProgressBar.

(** X19: for a cue with [start < end] the width of the progress bar lies
    between 0 and 100 percent, does not decrease with the playback
    position, is 0 up to the start of the cue, 100 from its end on, and
    in between the elapsed share of the cue. *)
Theorem X19_progress_bar :
  forall (sub : Subtitle) (t u : Q),
    startTime sub < endTime sub ->
    0 <= progress t sub /\ progress t sub <= 100
    /\ (t <= u -> progress t sub <= progress u sub)
    /\ (t <= startTime sub -> progress t sub == 0)
    /\ (endTime sub <= t -> progress t sub == 100)
    /\ (startTime sub <= t -> t <= endTime sub ->
        progress t sub
        == (t - startTime sub) / (endTime sub - startTime sub) * 100).
Proof.
  intros sub t u Hp.
  pose proof (fraction_le sub Hp) as Hmono.
  pose proof (fraction_at_start sub Hp) as H0.
  pose proof (fraction_at_end sub Hp) as H100.
  split; [ unfold progress; apply Q.min_glb;
           [ discriminate | apply Q.le_max_l ] | ].
  split; [ apply Q.le_min_l | ].
  split; [ apply progress_monotone; exact Hp | ].
  split; [ | split ].
  - intro Ht. unfold progress. specialize (Hmono _ _ Ht). rewrite H0 in Hmono.
    rewrite (Q.max_l _ _ Hmono). apply Q.min_r. discriminate.
  - intro Ht. unfold progress. specialize (Hmono _ _ Ht).
    rewrite H100 in Hmono.
    rewrite Q.max_r by (eapply Qle_trans; [ | exact Hmono ]; discriminate).
    apply Q.min_l. exact Hmono.
  - intros Hs He. unfold progress.
    pose proof (Hmono _ _ Hs) as Hlo. rewrite H0 in Hlo.
    pose proof (Hmono _ _ He) as Hhi. rewrite H100 in Hhi.
    rewrite (Q.max_r _ _ Hlo). apply Q.min_r. exact Hhi.
Qed.

Lemma X19_progress_bar_witness : progress 3 cue24 == 50.
Proof.
  assert (H : startTime cue24 < endTime cue24) by reflexivity.
  rewrite (proj2 (proj2 (proj2 (proj2 (proj2
             (X19_progress_bar cue24 3 3 H)))))).
  - reflexivity.
  - vm_compute. discriminate.
  - vm_compute. discriminate.
Defined.

(* ================================================================== *)
(** ** Transcription: the progress timer and a successful run *)
(* ================================================================== *)

(** X20: the progress timer adds 10 per firing and stops at 90: from a
    progress of at most 90, after [n] firings the progress is
    [min (progress + 10 n, 90)], so from 0 it is 90 from the ninth firing
    on and never 100 before the provider has answered. *)
Theorem X20_progress_timer :
  forall (n : nat) (st : Editor.State),
    (transcriptionProgress st <= 90)%Z ->
    transcriptionProgress (progressTicks n st)
    = Z.min (transcriptionProgress st + 10 * Z.of_nat n) 90.
Proof.
  induction n as [| n IH]; intros st H.
  - simpl. lia.
  - cbn [progressTicks]. rewrite Nat2Z.inj_succ.
    assert (Ht : transcriptionProgress (progressTick st)
                 = Z.min (transcriptionProgress st + 10) 90) by reflexivity.
    rewrite IH; rewrite Ht; lia.
Qed.

Lemma X20_progress_timer_witness :
  transcriptionProgress (progressTicks 12 (state_of [] 10 None)) = 90%Z.
Proof.
  rewrite (X20_progress_timer 12 (state_of [] 10 None)).
  - reflexivity.
  - simpl. lia.
Defined.

Lemma progressTicks_frame (n : nat) (st : Editor.State) :
  selectedSubtitle (progressTicks n st) = selectedSubtitle st
  /\ currentSubtitleId (progressTicks n st) = currentSubtitleId st
  /\ alerts (progressTicks n st) = alerts st.
Proof.
  revert st. induction n as [| n IH]; intro st; simpl;
    [ repeat split | ].
  destruct (IH (progressTick st)) as (H1 & H2 & H3).
  rewrite H1, H2, H3. repeat split.
Qed.

(** X21: without an audio file or without a user [transcribeAudio] does
    nothing.  Otherwise a run whose provider call resolves replaces the
    cue list by the segmentation of the text for the duration in the
    state, whatever the list was, ends with [isTranscribing] false and the
    progress at 0, and shows no message; the selection is not reset: a
    selected id [subtitle-k] now selects cue [k] of the new list. *)
Theorem X21_successful_transcription :
  forall (st : Editor.State) (base64Audio transcript : string) (ticks : nat),
    let st' := transcribeAudio (Resolved base64Audio) ticks
                               (Resolved transcript) st in
    (hasAudioFile st = false \/ hasUser st = false -> st' = st)
    /\ (hasAudioFile st = true -> hasUser st = true ->
        subtitles st' = segment transcript (duration st)
        /\ isTranscribing st' = false
        /\ transcriptionProgress st' = 0%Z
        /\ alerts st' = alerts st
        /\ selectedSubtitle st' = selectedSubtitle st
        /\ currentSubtitleId st' = currentSubtitleId st
        /\ forall k c,
             selectedSubtitle st
             = Some ("subtitle-" ++ JS.toString (Z.of_nat k)) ->
             nth_error (segment transcript (duration st)) k = Some c ->
             edited st' = Some c).
Proof.
  intros st base64Audio transcript ticks st'. split.
  - intros [H | H]; unfold st', transcribeAudio; rewrite H;
      [ reflexivity | rewrite orb_true_r; reflexivity ].
  - intros Hf Hu.
    assert (Hst : st' = onFinally
                          (setSubtitles (segment transcript (duration st))
                             (setTranscriptionProgress 100
                                (progressTicks ticks
                                   (setTranscriptionProgress 0
                                      (setIsTranscribing true st)))))).
    { unfold st', transcribeAudio. rewrite Hf, Hu. reflexivity. }
    destruct (progressTicks_frame ticks
                (setTranscriptionProgress 0 (setIsTranscribing true st)))
      as (Hsel & Hcur & Hal).
    assert (Hsel' : selectedSubtitle st' = selectedSubtitle st)
      by (rewrite Hst; simpl; exact Hsel).
    rewrite Hst at 1 2 3 4 6. simpl.
    split; [ reflexivity | ]. split; [ reflexivity | ].
    split; [ reflexivity | ]. split; [ exact Hal | ].
    split; [ exact Hsel' | ]. split; [ exact Hcur | ].
    intros k c Hk Hc.
    pose proof (segment_ids_list transcript (duration st)) as Hids.
    assert (Hid : id c = "subtitle-" ++ JS.toString (Z.of_nat k)).
    { assert (Hlt : (k < List.length (segment transcript (duration st)))%nat)
        by (apply nth_error_Some; rewrite Hc; discriminate).
      pose proof (map_nth_error id _ _ Hc) as Hm. rewrite Hids in Hm.
      rewrite nth_error_map, nth_error_seq in Hm.
      destruct (Nat.ltb_spec k (List.length
                                  (segment transcript (duration st))));
        [ | lia ].
      cbn [option_map Nat.add] in Hm. injection Hm as <-. reflexivity. }
    assert (Hk' : selectedSubtitle st = Some (id c))
      by (rewrite Hid; exact Hk).
    unfold edited. rewrite Hsel', Hk'.
    destruct (String.eqb_spec (id c) EmptyString) as [He | _];
      [ rewrite Hid in He; discriminate He | ].
    assert (Hsubs : subtitles st' = segment transcript (duration st))
      by (rewrite Hst; reflexivity).
    rewrite Hsubs. apply find_by_id; [ apply segment_ids_NoDup | ].
    apply (nth_error_In _ _ Hc).
Qed.

Lemma X21_successful_transcription_witness :
  exists c,
    nth_error (segment transcript8 10) 1 = Some c
    /\ edited (transcribeAudio (Resolved "UklGRg==") 3 (Resolved transcript8)
                 (state_of [cue02; cue24] 10 (Some "subtitle-1")))
       = Some c.
Proof.
  destruct (nth_error (segment transcript8 10) 1) as [c |] eqn:Hc;
    [ | discriminate Hc ].
  exists c. split; [ reflexivity | ].
  destruct (X21_successful_transcription
              (state_of [cue02; cue24] 10 (Some "subtitle-1"))
              "UklGRg==" transcript8 3) as (_ & H).
  destruct (H eq_refl eq_refl) as (_ & _ & _ & _ & _ & _ & Hsel).
  apply (Hsel 1%nat c eq_refl Hc).
Defined.

(* ================================================================== *)
(** ** The error filter and the error boundary *)
(* ================================================================== *)

Module BoundaryFacts.

Import ErrorBoundary.

Lemma startsWith_spec (k s : string) :
  startsWith k s = true <-> exists b, s = k ++ b.
Proof.
  revert s. induction k as [| x k IH]; intro s; simpl.
  - split; [ intros _; exists s; reflexivity | reflexivity ].
  - destruct s as [| y s].
    + split; [ discriminate | intros [b Hb]; discriminate Hb ].
    + rewrite andb_true_iff, IH. split.
      * intros [Hxy [b ->]]. apply Ascii.eqb_eq in Hxy. subst y.
        exists b. reflexivity.
      * intros [b Hb]. injection Hb as -> ->.
        split; [ apply Ascii.eqb_refl | exists b; reflexivity ].
Qed.

Lemma includes_spec (k s : string) :
  includes k s = true <-> exists a b, s = a ++ k ++ b.
Proof.
  induction s as [| y s IH].
  - simpl. rewrite orb_false_r, startsWith_spec. split.
    + intros [b Hb]. exists EmptyString, b. exact Hb.
    + intros (a & b & H). destruct a; [ exists b; exact H | discriminate H ].
  - cbn [includes]. rewrite orb_true_iff, startsWith_spec, IH. split.
    + intros [[b Hb] | (a & b & Hab)].
      * exists EmptyString, b. exact Hb.
      * exists (String y a), b. simpl. rewrite Hab. reflexivity.
    + intros (a & b & H). destruct a as [| x a].
      * left. exists b. exact H.
      * right. simpl in H. injection H as _ H. exists a, b. exact H.
Qed.

Lemma includes_trans (k1 k2 s : string) :
  includes k1 k2 = true -> includes k2 s = true -> includes k1 s = true.
Proof.
  rewrite !includes_spec. intros (a & b & ->) (a' & b' & ->).
  exists (a' ++ a), (b ++ b'). rewrite !append_assoc. reflexivity.
Qed.

Lemma lower_char_idempotent (c : ascii) :
  lower_char (lower_char c) = lower_char c.
Proof. destruct c as [[] [] [] [] [] [] [] []]; reflexivity. Qed.

Lemma toLowerCase_idempotent (s : string) :
  toLowerCase (toLowerCase s) = toLowerCase s.
Proof.
  induction s as [| c s IH]; simpl; [ reflexivity | ].
  rewrite lower_char_idempotent, IH. reflexivity.
Qed.

Lemma toLowerCase_app (a b : string) :
  toLowerCase (a ++ b) = toLowerCase a ++ toLowerCase b.
Proof.
  induction a as [| c a IH]; simpl; [ reflexivity | rewrite IH; reflexivity ].
Qed.

(** The nine keywords decide what six of them decide. *)
Lemma mentions_deciding (errorMessage : string) :
  mentionsMetaMask errorMessage
  = existsb (fun keyword => includes keyword (toLowerCase errorMessage))
            decidingKeywords.
Proof.
  unfold mentionsMetaMask, metamaskKeywords, decidingKeywords.
  cbn [existsb].
  set (L := toLowerCase errorMessage).
  change (toLowerCase "metamask") with "metamask".
  change (toLowerCase "MetaMask") with "metamask".
  change (toLowerCase "metamask_getProviderState")
    with "metamask_getproviderstate".
  change (toLowerCase "ethereum.request") with "ethereum.request".
  change (toLowerCase "ethereum.send") with "ethereum.send".
  change (toLowerCase "web3") with "web3".
  change (toLowerCase "provider") with "provider".
  change (toLowerCase "requestProvider.js") with "requestprovider.js".
  change (toLowerCase "inpage.js") with "inpage.js".
  pose proof (includes_trans "metamask" "metamask_getproviderstate" L eq_refl)
    as H1.
  pose proof (includes_trans "provider" "requestprovider.js" L eq_refl) as H2.
  destruct (includes "metamask" L); [ reflexivity | ].
  destruct (includes "metamask_getproviderstate" L);
    [ discriminate (H1 eq_refl) | ].
  destruct (includes "provider" L);
    [ rewrite !orb_true_r; reflexivity | ].
  destruct (includes "requestprovider.js" L);
    [ discriminate (H2 eq_refl) | ].
  rewrite !orb_false_r. reflexivity.
Qed.

Lemma entry_deciding (errorString : string) :
  errorString <> EmptyString ->
  consoleErrorSuppressed errorString
  = existsb (fun keyword => includes keyword (toLowerCase errorString))
            [ "metamask"; "ethereum.request"; "ethereum.send"; "web3";
              "provider" ].
Proof.
  intro Hne. unfold consoleErrorSuppressed, entryKeywords.
  destruct (String.eqb_spec errorString EmptyString) as [He | _];
    [ contradiction | ].
  cbn [negb existsb].
  set (L := toLowerCase errorString).
  change (toLowerCase "metamask") with "metamask".
  change (toLowerCase "MetaMask") with "metamask".
  change (toLowerCase "metamask_getProviderState")
    with "metamask_getproviderstate".
  change (toLowerCase "ethereum.request") with "ethereum.request".
  change (toLowerCase "ethereum.send") with "ethereum.send".
  change (toLowerCase "web3") with "web3".
  change (toLowerCase "provider") with "provider".
  pose proof (includes_trans "metamask" "metamask_getproviderstate" L eq_refl)
    as H1.
  destruct (includes "metamask" L); [ reflexivity | ].
  destruct (includes "metamask_getproviderstate" L);
    [ discriminate (H1 eq_refl) | ].
  reflexivity.
Qed.

Lemma mentions_word (a w b keyword : string) :
  In keyword decidingKeywords -> toLowerCase w = keyword ->
  mentionsMetaMask (a ++ w ++ b) = true.
Proof.
  intros Hin Hw. rewrite mentions_deciding. apply existsb_exists.
  exists keyword. split; [ exact Hin | ].
  apply includes_spec. exists (toLowerCase a), (toLowerCase b).
  rewrite !toLowerCase_app, Hw. reflexivity.
Qed.

End BoundaryFacts.

(** X22: the test for a MetaMask error looks the message up in lower
    case, so it does not depend on the case of the letters, and its nine
    keywords decide what six of them decide: the message contains
    [metamask], [ethereum.request], [ethereum.send], [web3], [provider] or
    [inpage.js].  Every message with one of these words in any case
    passes the test, the word "provider" in an error of the application
    included. *)
Theorem X22_error_filter_keywords :
  forall errorMessage : string,
    ErrorBoundary.mentionsMetaMask errorMessage
    = existsb (fun keyword =>
                 ErrorBoundary.includes keyword
                   (ErrorBoundary.toLowerCase errorMessage))
              ErrorBoundary.decidingKeywords
    /\ ErrorBoundary.mentionsMetaMask (ErrorBoundary.toLowerCase errorMessage)
       = ErrorBoundary.mentionsMetaMask errorMessage
    /\ (forall a w b keyword,
           errorMessage = a ++ w ++ b ->
           In keyword ErrorBoundary.decidingKeywords ->
           ErrorBoundary.toLowerCase w = keyword ->
           ErrorBoundary.mentionsMetaMask errorMessage = true).
Proof.
  intro msg. split; [ apply BoundaryFacts.mentions_deciding | ].
  split.
  - rewrite !BoundaryFacts.mentions_deciding,
      BoundaryFacts.toLowerCase_idempotent. reflexivity.
  - intros a w b keyword -> Hin Hw.
    apply (BoundaryFacts.mentions_word a w b keyword Hin Hw).
Qed.

Lemma X22_error_filter_keywords_witness :
  ErrorBoundary.mentionsMetaMask "Transcription PROVIDER timed out" = true.
Proof.
  refine (proj2 (proj2 (X22_error_filter_keywords
            "Transcription PROVIDER timed out"))
            "Transcription " "PROVIDER" " timed out" "provider" _ _ _).
  - reflexivity.
  - simpl. tauto.
  - reflexivity.
Defined.

(** X23: after an error was caught, the boundary shows the fallback
    exactly when the error does not pass the MetaMask test, whatever the
    state was before; an error that passes the test leaves the boundary in
    its initial state; "Try Again" always brings the children back; and
    the fallback is never shown for a stored error that passes the
    test. *)
Theorem X23_error_boundary :
  forall (e : ErrorBoundary.Error) (st : ErrorBoundary.State),
    (ErrorBoundary.isMetaMaskError (Some e) = true ->
     ErrorBoundary.catchError e st = ErrorBoundary.initial
     /\ ErrorBoundary.render (ErrorBoundary.catchError e st)
        = ErrorBoundary.Children)
    /\ (ErrorBoundary.isMetaMaskError (Some e) = false ->
        ErrorBoundary.catchError e st = ErrorBoundary.mkState true (Some e)
        /\ ErrorBoundary.render (ErrorBoundary.catchError e st)
           = ErrorBoundary.Fallback)
    /\ ErrorBoundary.render
         (ErrorBoundary.handleReset (ErrorBoundary.catchError e st))
       = ErrorBoundary.Children
    /\ (ErrorBoundary.render st = ErrorBoundary.Fallback ->
        ErrorBoundary.hasError st = true
        /\ exists e', ErrorBoundary.error st = Some e'
                      /\ ErrorBoundary.isMetaMaskError (Some e') = false).
Proof.
  intros e st.
  unfold ErrorBoundary.catchError, ErrorBoundary.componentDidCatch,
    ErrorBoundary.getDerivedStateFromError.
  split; [ | split; [ | split ] ].
  - intro H. rewrite H. split; reflexivity.
  - intro H. rewrite H. unfold ErrorBoundary.render. simpl.
    change (ErrorBoundary.mentionsMetaMask (ErrorBoundary.errorMessage e))
      with (ErrorBoundary.isMetaMaskError (Some e)).
    rewrite H. split; reflexivity.
  - reflexivity.
  - unfold ErrorBoundary.render.
    destruct (ErrorBoundary.error st) as [e' |]; [ | discriminate ].
    destruct (ErrorBoundary.hasError st); [ | discriminate ].
    destruct (ErrorBoundary.isMetaMaskError (Some e')) eqn:He;
      [ discriminate | ].
    intros _. split; [ reflexivity | ].
    exists e'. split; [ reflexivity | exact He ].
Qed.

Lemma X23_error_boundary_witness :
  ErrorBoundary.render
    (ErrorBoundary.catchError
       (ErrorBoundary.mkError "TypeError" "words is undefined" None)
       ErrorBoundary.initial)
  = ErrorBoundary.Fallback
  /\ ErrorBoundary.render
       (ErrorBoundary.catchError
          (ErrorBoundary.mkError "Error" "No audio provider configured" None)
          (ErrorBoundary.mkState true
             (Some (ErrorBoundary.mkError "TypeError" "words is undefined"
                                          None))))
     = ErrorBoundary.Children.
Proof.
  split.
  - refine (proj2 (proj1 (proj2 (X23_error_boundary _ _)) _)). reflexivity.
  - refine (proj2 (proj1 (X23_error_boundary _ _) _)). reflexivity.
Defined.

(** X24: the override of [console.error] in the entry point turns a call
    into a warning exactly when the joined text of its arguments
    contains, in any case, [metamask], [ethereum.request],
    [ethereum.send], [web3] or [provider]; an empty text is never
    suppressed; and every text it suppresses also passes the test of the
    error boundary. *)
Theorem X24_console_error_filter :
  forall errorString : string,
    (errorString <> EmptyString ->
     ErrorBoundary.consoleErrorSuppressed errorString
     = existsb (fun keyword =>
                  ErrorBoundary.includes keyword
                    (ErrorBoundary.toLowerCase errorString))
               [ "metamask"; "ethereum.request"; "ethereum.send"; "web3";
                 "provider" ])
    /\ (ErrorBoundary.consoleErrorSuppressed errorString = true ->
        errorString <> EmptyString
        /\ ErrorBoundary.mentionsMetaMask errorString = true).
Proof.
  intro s. split; [ apply BoundaryFacts.entry_deciding | ].
  intro H. destruct (String.eqb_spec s EmptyString) as [-> | Hne].
  - vm_compute in H. discriminate H.
  - split; [ exact Hne | ].
    rewrite (BoundaryFacts.entry_deciding s Hne) in H.
    rewrite BoundaryFacts.mentions_deciding.
    unfold ErrorBoundary.decidingKeywords. cbn [existsb] in *.
    rewrite !orb_false_r in H. rewrite orb_false_r.
    rewrite !orb_assoc. rewrite !orb_assoc in H. rewrite H. reflexivity.
Qed.

Lemma X24_console_error_filter_witness :
  ErrorBoundary.mentionsMetaMask "Transcription failed: Web3 not found"
  = true.
Proof.
  refine (proj2 (proj2 (X24_console_error_filter
            "Transcription failed: Web3 not found") _)).
  reflexivity.
Defined.

(* ================================================================== *)
(** ** Selecting a cue in the timeline *)
(* ================================================================== *)

Lemma edited_by_id (st : Editor.State) (c : Subtitle) :
  NoDup (map id (subtitles st)) -> In c (subtitles st) ->
  id c <> EmptyString -> selectedSubtitle st = Some (id c) ->
  edited st = Some c.
Proof.
  intros Hnd Hin Hne Hsel. unfold edited. rewrite Hsel.
  destruct (String.eqb_spec (id c) EmptyString) as [He | _];
    [ contradiction | ].
  apply find_by_id; assumption.
Qed.

(** X25: on the cue list of a segmentation, a click on entry [k + 1] of
    the timeline selects that cue for editing and moves the position to
    its start; at that position the lookup of the next [timeupdate] finds
    the cue before it, so the live display shows cue [k] while cue
    [k + 1] is edited. *)
Theorem X25_timeline_click :
  forall (transcript : string) (f : File) (st : Editor.State) (k : nat)
         (a b : Subtitle),
    subtitles st = segment transcript (duration st) ->
    hasUser st = true ->
    nth_error (subtitles st) k = Some a ->
    nth_error (subtitles st) (S k) = Some b ->
    let st' := editor (clickTimeline b (player_of f st)) in
    edited st' = Some b
    /\ currentTime st' = startTime b
    /\ subtitles st' = subtitles st
    /\ displayed (updateTime (currentTime st') st') = Some a.
Proof.
  intros transcript f st k a b Hsubs Hu Ha Hb st'.
  assert (Hst : st' = setCurrentTime (startTime b)
                        (setSelectedSubtitle (Some (id b)) st)).
  { unfold st', clickTimeline, seekTo, audioMounted. simpl. rewrite Hu.
    reflexivity. }
  assert (Hnd : NoDup (map id (subtitles st')))
    by (rewrite Hst; simpl; rewrite Hsubs; apply segment_ids_NoDup).
  assert (Hne : Forall (fun c => id c <> EmptyString) (subtitles st'))
    by (rewrite Hst; simpl; rewrite Hsubs; apply segment_ids).
  split; [ | split; [ rewrite Hst; reflexivity
                    | split; [ rewrite Hst; reflexivity | ] ] ].
  - apply edited_by_id; try assumption.
    + rewrite Hst. simpl. apply (nth_error_In _ _ Hb).
    + rewrite Forall_forall in Hne. apply Hne.
      rewrite Hst. simpl. apply (nth_error_In _ _ Hb).
    + rewrite Hst. reflexivity.
  - rewrite (displayed_updateTime st' _ Hnd Hne).
    rewrite Hst. simpl. rewrite Hsubs in *.
    apply (boundary_lookup transcript (duration st) k a b Ha Hb).
Qed.

Lemma X25_timeline_click_witness :
  exists a b,
    nth_error (segment transcript8 10) 0 = Some a
    /\ nth_error (segment transcript8 10) 1 = Some b
    /\ edited (editor (clickTimeline b
                 (player_of (mkFile "talk.mp3" "audio/mpeg")
                            (state_of (segment transcript8 10) 10 None))))
       = Some b.
Proof.
  destruct (nth_error (segment transcript8 10) 0) as [a |] eqn:Ha;
    [ | discriminate Ha ].
  destruct (nth_error (segment transcript8 10) 1) as [b |] eqn:Hb;
    [ | discriminate Hb ].
  exists a, b. split; [ reflexivity | ]. split; [ reflexivity | ].
  apply (X25_timeline_click transcript8 (mkFile "talk.mp3" "audio/mpeg")
           (state_of (segment transcript8 10) 10 None) 0 a b
           eq_refl eq_refl Ha Hb).
Defined.

(* ================================================================== *)
(** ** The time fields keep the edited cue inside the audio *)
(* ================================================================== *)

Lemma find_updateSubtitleTiming (c : Subtitle) (a b : Q)
      (subs : list Subtitle) :
  find (fun s => String.eqb (id s) (id c)) subs = Some c ->
  find (fun s => String.eqb (id s) (id c))
       (updateSubtitleTiming (id c) a b subs)
  = Some (mkSubtitle (id c) a b (text c)).
Proof.
  induction subs as [| x rest IH]; simpl; [ discriminate | ].
  destruct (String.eqb_spec (id x) (id c)) as [Heq | Hne]; simpl.
  - intro H. injection H as ->. rewrite String.eqb_refl. reflexivity.
  - destruct (String.eqb_spec (id x) (id c)); [ contradiction | ].
    exact IH.
Qed.

Lemma edited_after_timing (st : Editor.State) (c : Subtitle) (a b : Q) :
  edited st = Some c ->
  edited (setSubtitles (updateSubtitleTiming (id c) a b (subtitles st)) st)
  = Some (mkSubtitle (id c) a b (text c)).
Proof.
  unfold edited. simpl.
  destruct (selectedSubtitle st) as [sel |]; [ | discriminate ].
  destruct (String.eqb sel EmptyString); [ discriminate | ].
  intro H. pose proof (find_some _ _ H) as [_ Hid].
  apply String.eqb_eq in Hid. subst sel.
  apply find_updateSubtitleTiming. exact H.
Qed.

(** X26: whatever is typed into the start field or the end field, an
    edited cue with [0 <= start < end <= duration] is afterwards still the
    edited cue, with its id and text, and still has
    [0 <= start < end <= duration]. *)
Theorem X26_time_fields_keep_the_cue_valid :
  forall (value : string) (st : Editor.State) (c : Subtitle),
    edited st = Some c ->
    0 <= startTime c -> startTime c < endTime c ->
    endTime c <= duration st ->
    forall st',
      st' = changeStartTime value st \/ st' = changeEndTime value st ->
      exists c',
        edited st' = Some c'
        /\ id c' = id c /\ text c' = text c
        /\ 0 <= startTime c' /\ startTime c' < endTime c'
        /\ endTime c' <= duration st'.
Proof.
  intros value st c He H0 H1 H2 st' [-> | ->].
  - unfold changeStartTime. rewrite He.
    destruct (Qle_bool 0 (parseTime value)
              && Qlt_bool (parseTime value) (endTime c)) eqn:Hg.
    + apply start_guard in Hg. destruct Hg as [Hg0 Hg1].
      eexists. split; [ apply (edited_after_timing st c _ _ He) | ].
      simpl. repeat split; assumption.
    + exists c. repeat split; assumption.
  - unfold changeEndTime. rewrite He.
    destruct (Qlt_bool (startTime c) (parseTime value)
              && Qle_bool (parseTime value) (duration st)) eqn:Hg.
    + apply end_guard in Hg. destruct Hg as [Hg0 Hg1].
      eexists. split; [ apply (edited_after_timing st c _ _ He) | ].
      simpl. repeat split; assumption.
    + exists c. repeat split; assumption.
Qed.

Lemma X26_time_fields_keep_the_cue_valid_witness :
  exists c',
    edited (changeEndTime "00:03.500"
              (state_of [cue02; cue24] 4 (Some "subtitle-1"))) = Some c'
    /\ startTime c' < endTime c'.
Proof.
  destruct (X26_time_fields_keep_the_cue_valid "00:03.500"
              (state_of [cue02; cue24] 4 (Some "subtitle-1")) cue24 eq_refl)
    with (st' := changeEndTime "00:03.500"
                   (state_of [cue02; cue24] 4 (Some "subtitle-1")))
    as (c' & He & _ & _ & _ & Hlt & _).
  - vm_compute. discriminate.
  - reflexivity.
  - vm_compute. discriminate.
  - right. reflexivity.
  - exists c'. split; [ exact He | exact Hlt ].
Defined.
